(** * muLFC: the incommensurate-helix lattice sum ([FastIncommSum])

    A shallow embedding of [src/fastincommsum.c].

    Conventions of the embedding.
    - A C [double] is a real number ([R]); rounding, overflow and the IEEE
      special values are not represented, except in the module
      [SpecialValues] at the end, which re-reads the helix decomposition
      over reals extended with infinities and NaN.
    - A C array is a list; [a[i]] is [rd a i] and [a[i] = v] is [upd i v a].
    - [unsigned int] counters are [nat]; [in_supercell] holds C [int]s,
      converted to [unsigned int] by reduction modulo 2^32.
    - [printf] is a trace of [diagnostic] events, in program order.
    - The OpenMP loops are run in their sequential order; every update of
      shared data sits in a critical section in the source. *)

From Stdlib Require Import Reals Lra Lia List ZArith Bool.
From Stdlib Require Import Sorting.Sorted Sorting.Permutation.
Import ListNotations.
Open Scope R_scope.

(** ** 3-vectors *)

(** [struct vec3], with the fields [x], [y], [z] the source reads. *)
Record vec3 : Type := mkvec3 { x : R; y : R; z : R }.

(** [struct mat3]: the source fills the rows [a], [b], [c] of [sc_lat]
    field by field; the rows are named [row_a], [row_b], [row_c] here. *)
Record mat3 : Type := mkmat3 { row_a : vec3; row_b : vec3; row_c : vec3 }.

(** Modelled from the spec: [mat3.h] is not part of the sources at hand; the
    vector operations are the "add, subtract, scalar-multiply, dot, norm" of
    a fixed-size 3-vector type. *)
Definition vec3_zero : vec3 := mkvec3 0 0 0.

Definition vec3_add (v w : vec3) : vec3 :=
  mkvec3 (x v + x w) (y v + y w) (z v + z w).

Definition vec3_sub (v w : vec3) : vec3 :=
  mkvec3 (x v - x w) (y v - y w) (z v - z w).

Definition vec3_muls (s : R) (v : vec3) : vec3 :=
  mkvec3 (s * x v) (s * y v) (s * z v).

Definition vec3_dot (v w : vec3) : R :=
  x v * x w + y v * y w + z v * z w.

Definition vec3_norm (v : vec3) : R := sqrt (vec3_dot v v).

(** ** Arrays *)

(** [a[i]] on an array of doubles. *)
Definition rd (l : list R) (i : nat) : R := nth i l 0.

(** [a[i]] on an array of vectors. *)
Definition rdv (l : list vec3) (i : nat) : vec3 := nth i l vec3_zero.

(** [a[i] = v].  Every index the program writes lies inside its array;
    outside it the model leaves the array as it is. *)
Fixpoint upd {A : Type} (i : nat) (v : A) (l : list A) : list A :=
  match l, i with
  | [], _ => []
  | _ :: t, O => v :: t
  | h :: t, S i' => h :: upd i' v t
  end.

(** [for (a = 0; a < n; ++a) body(a)] over a state of type [S]. *)
Definition for_loop {S : Type} (n : nat) (body : nat -> S -> S) (s : S) : S :=
  fold_left (fun st a => body a st) (seq 0 n) s.

(** ** Diagnostics printed by the routine (outside [_DEBUG]) *)

Inductive diagnostic : Type :=
| StagMomDiffers (a : nat)
    (* "ERROR!!! Staggered moment is different in real and imag parts of
       atom %u\n Use another routine!" *)
| NotOrthogonal (a : nat) (d : R)
    (* "ERROR!!! Real and imaginary part of atom %u are not orthogonal by
       %e!" *)
| PhiNotTested
    (* "WARNING!!! Phi not completely tested! Double check your results." *)
| VeryOdd (r1 r2 : R).
    (* "Something VERY odd ! ranks 1: %e ranks 2: %e" *)

(** ** The arguments of [FastIncommSum] *)

Record args : Type := mkargs {
  in_positions : list R;
  in_fc : list R;
  in_K : list R;
  in_phi : list R;
  in_muonpos : list R;
  in_supercell : list Z;
  in_cell : list R;
  radius : R;
  nnn_for_cont : nat;
  cont_radius : R;
  in_natoms : nat;
  in_nangles : nat
}.

(** [scx = in_supercell[0]]: an [int] stored into an [unsigned int]. *)
Definition to_unsigned (v : Z) : nat := Z.to_nat (v mod 2 ^ 32).

Definition sc (g : args) (d : nat) : nat :=
  to_unsigned (nth d (in_supercell g) 0%Z).

Definition scx (g : args) : nat := sc g 0.
Definition scy (g : args) : nat := sc g 1.
Definition scz (g : args) : nat := sc g 2.

(** Real part of the Fourier components of atom [a] (standard layout):
    [in_fc[6*a]], [in_fc[6*a+2]], [in_fc[6*a+4]]. *)
Definition fc_re (g : args) (a : nat) : vec3 :=
  mkvec3 (rd (in_fc g) (6 * a)) (rd (in_fc g) (6 * a + 2))
         (rd (in_fc g) (6 * a + 4)).

(** Imaginary part: [in_fc[6*a+1]], [in_fc[6*a+3]], [in_fc[6*a+5]]. *)
Definition fc_im (g : args) (a : nat) : vec3 :=
  mkvec3 (rd (in_fc g) (6 * a + 1)) (rd (in_fc g) (6 * a + 3))
         (rd (in_fc g) (6 * a + 5)).

(** Comparisons of doubles, as the booleans the C conditions are. *)
Definition Rltb (u v : R) : bool := if Rlt_dec u v then true else false.
Definition Rgtb (u v : R) : bool := if Rgt_dec u v then true else false.
Definition Rgeb (u v : R) : bool := if Rge_dec u v then true else false.

(** ** The bounded nearest-set selector ([pile]) *)

(** Modelled from the spec: [pile.h] and its implementation are not part of
    the sources at hand, only the calls [pile_init], [pile_add_element] and
    the reads of [ranks[i]] and [elements[i]] are.  A pile has a fixed
    capacity and holds at most that many (rank, value) pairs in ascending
    rank order. *)
Record pile : Type := mkpile { nElements : nat; held : list (R * vec3) }.

(** Modelled from the spec: "construct with fixed capacity K". *)
Definition pile_init (K : nat) : pile := mkpile K [].

(** Modelled from the spec: "insert maintaining ascending-rank order ...
    ties broken by insertion order (first-seen retained)": the new pair goes
    after every held pair whose rank is not larger. *)
Fixpoint insert_by_rank (rank : R) (v : vec3) (l : list (R * vec3))
  : list (R * vec3) :=
  match l with
  | [] => [(rank, v)]
  | e :: t =>
      if Rltb rank (fst e) then (rank, v) :: e :: t
      else e :: insert_by_rank rank v t
  end.

(** Modelled from the spec: "if fewer than K entries held, insert
    maintaining ascending-rank order; if at capacity, insert only if rank is
    smaller than the current largest retained rank, evicting that largest
    entry". *)
Definition pile_add_element (p : pile) (rank : R) (v : vec3) : pile :=
  if (length (held p) <? nElements p)%nat then
    mkpile (nElements p) (insert_by_rank rank v (held p))
  else
    match rev (held p) with
    | [] => p
    | largest :: _ =>
        if Rltb rank (fst largest) then
          mkpile (nElements p)
                 (insert_by_rank rank v (removelast (held p)))
        else p
    end.

(** Modelled from the spec: "positions beyond the number of candidates
    observed are defined to hold a sentinel rank (negative)". *)
Definition sentinel : R := -1.

(** Modelled from the spec: the array [ranks] of a pile, of length
    [nElements], as the contact pass reads it. *)
Definition ranks (p : pile) : list R :=
  map fst (held p) ++ repeat sentinel (nElements p - length (held p)).

(** Modelled from the spec: the array [elements] of a pile. *)
Definition elements (p : pile) : list vec3 :=
  map snd (held p) ++ repeat vec3_zero (nElements p - length (held p)).

(** The pile after a sequence of insertions, first candidate first. *)
Definition pile_of (K : nat) (cands : list (R * vec3)) : pile :=
  fold_left (fun p e => pile_add_element p (fst e) (snd e)) cands
            (pile_init K).

(** Stable insertion sort by rank: the reference the pile is compared to. *)
Definition sort_by_rank (cands : list (R * vec3)) : list (R * vec3) :=
  fold_left (fun l e => insert_by_rank (fst e) (snd e) l) cands [].

(** Ascending ranks. *)
Definition ascending (l : list R) : Prop := Sorted Rle l.

(** The order of two pairs by rank. *)
Definition rank_le (e e' : R * vec3) : Prop := fst e <= fst e'.

(** The pairs of rank [r]. *)
Definition rank_is (r : R) (e : R * vec3) : bool :=
  if Req_dec_T (fst e) r then true else false.

(** ** A standard instance of the matrix operations *)

(** Modelled from the spec: the "matrix-vector multiply, matrix
    inverse/multiply/diagonal-construction" of [mat3.h], which is not part of
    the sources at hand.  The program below is parametrised by these four
    operations; the definitions here are the usual ones (row vector times
    matrix) and serve as one instance. *)
Definition std_mat3_vmul (v : vec3) (m : mat3) : vec3 :=
  vec3_add (vec3_muls (x v) (row_a m))
           (vec3_add (vec3_muls (y v) (row_b m)) (vec3_muls (z v) (row_c m))).

Definition std_mat3_diag (d1 d2 d3 : R) : mat3 :=
  mkmat3 (mkvec3 d1 0 0) (mkvec3 0 d2 0) (mkvec3 0 0 d3).

Definition std_mat3_mul (m n : mat3) : mat3 :=
  mkmat3 (std_mat3_vmul (row_a m) n) (std_mat3_vmul (row_b m) n)
         (std_mat3_vmul (row_c m) n).

Definition mat3_det (m : mat3) : R :=
  x (row_a m) * (y (row_b m) * z (row_c m) - z (row_b m) * y (row_c m))
  - y (row_a m) * (x (row_b m) * z (row_c m) - z (row_b m) * x (row_c m))
  + z (row_a m) * (x (row_b m) * y (row_c m) - y (row_b m) * x (row_c m)).

Definition std_mat3_inv (m : mat3) : mat3 :=
  let d := 1 / mat3_det m in
  mkmat3
    (mkvec3 (d * (y (row_b m) * z (row_c m) - z (row_b m) * y (row_c m)))
            (d * (z (row_a m) * y (row_c m) - y (row_a m) * z (row_c m)))
            (d * (y (row_a m) * z (row_b m) - z (row_a m) * y (row_b m))))
    (mkvec3 (d * (z (row_b m) * x (row_c m) - x (row_b m) * z (row_c m)))
            (d * (x (row_a m) * z (row_c m) - z (row_a m) * x (row_c m)))
            (d * (z (row_a m) * x (row_b m) - x (row_a m) * z (row_b m))))
    (mkvec3 (d * (x (row_b m) * y (row_c m) - y (row_b m) * x (row_c m)))
            (d * (y (row_a m) * x (row_c m) - x (row_a m) * y (row_c m)))
            (d * (x (row_a m) * y (row_b m) - y (row_a m) * x (row_b m)))).

(** ** Sums and quotients the statements are written with *)

(** The vector sum of [f 0], ..., [f (n-1)]. *)
Fixpoint vsum (f : nat -> vec3) (n : nat) : vec3 :=
  match n with
  | O => vec3_zero
  | S m => vec3_add (vsum f m) (f m)
  end.

(** The sum of [f 0], ..., [f (n-1)]. *)
Fixpoint rsum (f : nat -> R) (n : nat) : R :=
  match n with
  | O => 0
  | S m => rsum f m + f m
  end.

(** A vector divided by a scalar, component by component. *)
Definition vec3_divs (v : vec3) (s : R) : vec3 :=
  mkvec3 (x v / s) (y v / s) (z v / s).

(** ** Equality of vectors *)

Lemma vec3_eq (v w : vec3) :
  x v = x w -> y v = y w -> z v = z w -> v = w.
Proof. destruct v, w; simpl; intros; subst; reflexivity. Qed.

(** Closes an equation between vectors built from the operations of
    [mat3.h], component by component. *)
Ltac vec3_ring :=
  apply vec3_eq;
  unfold vec3_add, vec3_sub, vec3_muls, vec3_divs, vec3_zero, vec3_dot;
  cbn [x y z]; unfold Rdiv; try ring.

Ltac vec3_field :=
  apply vec3_eq;
  unfold vec3_add, vec3_sub, vec3_muls, vec3_divs, vec3_zero, vec3_dot;
  cbn [x y z]; try (field; auto).

(** ** The program *)

Section FastIncommSum.

Set Default Proof Using "Type".

(** [config.h] and [mat3.h] are not part of the sources at hand: the two
    macros and the four matrix operations the routine uses are parameters.
    [CONT_SCALING_POWER] is taken as a natural exponent. *)
Variable EPS : R.
Variable CONT_SCALING_POWER : nat.
Variable mat3_inv : mat3 -> mat3.
Variable mat3_mul : mat3 -> mat3 -> mat3.
Variable mat3_diag : R -> R -> R -> mat3.
Variable mat3_vmul : vec3 -> mat3 -> vec3.

(** *** Geometry set-up (lines 139-209) *)

(** [sc_lat] as first filled from [in_cell]. *)
Definition cell (g : args) : mat3 :=
  mkmat3
    (mkvec3 (rd (in_cell g) 0) (rd (in_cell g) 1) (rd (in_cell g) 2))
    (mkvec3 (rd (in_cell g) 3) (rd (in_cell g) 4) (rd (in_cell g) 5))
    (mkvec3 (rd (in_cell g) 6) (rd (in_cell g) 7) (rd (in_cell g) 8)).

(** [inv_sc_lat = mat3_inv(sc_lat)], taken before [sc_lat] is scaled. *)
Definition inv_sc_lat (g : args) : mat3 := mat3_inv (cell g).

(** [sc_lat = mat3_mul(mat3_diag(scx, scy, scz), sc_lat)]. *)
Definition sc_lat (g : args) : mat3 :=
  mat3_mul (mat3_diag (INR (scx g)) (INR (scy g)) (INR (scz g))) (cell g).

Definition K (g : args) : vec3 :=
  mkvec3 (rd (in_K g) 0) (rd (in_K g) 1) (rd (in_K g) 2).

(** The fractional position [(p + (sc/2)) / (float) sc] used for the muon and
    for the reference atoms; [sc/2] is an unsigned integer division. *)
Definition centred (g : args) (p : list R) (o : nat) : vec3 :=
  mkvec3 ((rd p (o + 0) + INR (scx g / 2)) / INR (scx g))
         ((rd p (o + 1) + INR (scy g / 2)) / INR (scy g))
         ((rd p (o + 2) + INR (scz g / 2)) / INR (scz g)).

Definition muonpos (g : args) : vec3 :=
  mat3_vmul (centred g (in_muonpos g) 0) (sc_lat g).

(** *** Helix decomposition (lines 217-288) *)

Record helix : Type := mkhelix {
  stagmom : list R;
  refatmpos : list vec3;
  Ahelix : list vec3;
  Bhelix : list vec3;
  printed : list diagnostic
}.

(** The arrays as allocated, [Ahelix] and [Bhelix] zeroed by the loop at
    line 119.  [stagmom] and [refatmpos] are written before they are read. *)
Definition helix_init (g : args) : helix :=
  mkhelix (repeat 0 (in_natoms g)) (repeat vec3_zero (in_natoms g))
          (repeat vec3_zero (in_natoms g)) (repeat vec3_zero (in_natoms g))
          [].

(** One message, when its condition holds. *)
Definition say (cond : bool) (d : diagnostic) : list diagnostic :=
  if cond then [d] else [].

(** Body of the loop over atoms at line 217, for atom [a]. *)
Definition helix_body (g : args) (a : nat) (h : helix) : helix :=
  let ref := mat3_vmul (centred g (in_positions g) (3 * a)) (sc_lat g) in
  let tmp := fc_re g a in
  let m0 := vec3_norm tmp in
  let A := vec3_muls (1 / m0) tmp in
  let tmp' := fc_im g a in
  let d1 := say (Rgtb (Rabs (m0 - vec3_norm tmp')) EPS) (StagMomDiffers a) in
  let B := vec3_muls (1 / vec3_norm tmp') tmp' in
  let d2 := say (Rgtb (Rabs (vec3_dot A B)) EPS)
                (NotOrthogonal a (vec3_dot A B)) in
  let d3 := say (Rgtb (Rabs (rd (in_phi g) a)) EPS) PhiNotTested in
  mkhelix (upd a m0 (stagmom h)) (upd a ref (refatmpos h))
          (upd a A (Ahelix h)) (upd a B (Bhelix h))
          (printed h ++ d1 ++ d2 ++ d3).

Definition helix_stage (g : args) : helix :=
  for_loop (in_natoms g) (helix_body g) (helix_init g).

(** *** Lattice reduction (lines 293-434) *)

Record sums : Type := mksums {
  CDip : list vec3;
  SDip : list vec3;
  CLor : list vec3;
  SLor : list vec3;
  CCont : pile;
  SCont : pile
}.

(** Accumulators zeroed at line 119, piles initialised at line 116. *)
Definition sums_init (g : args) : sums :=
  mksums (repeat vec3_zero (in_natoms g)) (repeat vec3_zero (in_natoms g))
         (repeat vec3_zero (in_natoms g)) (repeat vec3_zero (in_natoms g))
         (pile_init (nnn_for_cont g)) (pile_init (nnn_for_cont g)).

(** Cartesian position of atom [a] in replica [(i,j,k)] (lines 307-314). *)
Definition atmpos (g : args) (i j k a : nat) : vec3 :=
  mat3_vmul
    (mkvec3 ((rd (in_positions g) (3 * a) + INR i) / INR (scx g))
            ((rd (in_positions g) (3 * a + 1) + INR j) / INR (scy g))
            ((rd (in_positions g) (3 * a + 2) + INR k) / INR (scz g)))
    (sc_lat g).

(** [r = vec3_sub(atmpos, muonpos)] and [n = vec3_norm(r)]. *)
Definition disp (g : args) (i j k a : nat) : vec3 :=
  vec3_sub (atmpos g i j k a) (muonpos g).

Definition dist (g : args) (i j k a : nat) : R := vec3_norm (disp g i j k a).

(** [crysvec] (line 333). *)
Definition crysvec (g : args) (h : helix) (i j k a : nat) : vec3 :=
  mat3_vmul
    (vec3_sub (vec3_sub (atmpos g i j k a) (muonpos g)) (rdv (refatmpos h) a))
    (inv_sc_lat g).

(** The argument of [cos] and [sin] at lines 335-336. *)
Definition theta (g : args) (h : helix) (i j k a : nat) : R :=
  2 * PI * (vec3_dot (K g) (crysvec g h i j k a) + rd (in_phi g) a).

(** Body of the innermost loop (lines 305-429). *)
Definition tuple_step (g : args) (h : helix) (i j k a : nat) (s : sums)
  : sums :=
  let r := disp g i j k a in
  let n := vec3_norm r in
  if Rltb n (radius g) then
    let u := vec3_muls (1 / n) r in
    let onebrcube := 1 / n ^ 3 in
    let c := cos (theta g h i j k a) in
    let s' := sin (theta g h i j k a) in
    let A := rdv (Ahelix h) a in
    let B := rdv (Bhelix h) a in
    let tA := vec3_sub (vec3_muls (3 * vec3_dot A u) u) A in
    let tB := vec3_sub (vec3_muls (3 * vec3_dot B u) u) B in
    let cdip := vec3_add (rdv (CDip s) a)
                  (vec3_add (vec3_muls (c * onebrcube) tA)
                            (vec3_muls (s' * onebrcube) tB)) in
    let sdip := vec3_add (rdv (SDip s) a)
                  (vec3_sub (vec3_muls (s' * onebrcube) tA)
                            (vec3_muls (c * onebrcube) tB)) in
    let clor := vec3_add (rdv (CLor s) a)
                  (vec3_add (vec3_muls c A) (vec3_muls s' B)) in
    let slor := vec3_add (rdv (SLor s) a)
                  (vec3_sub (vec3_muls s' A) (vec3_muls c B)) in
    let m0 := rd (stagmom h) a in
    let piles :=
      if Rltb n (cont_radius g) then
        (pile_add_element (CCont s) (n ^ CONT_SCALING_POWER)
           (vec3_add (vec3_muls (m0 * c) A) (vec3_muls (m0 * s') B)),
         pile_add_element (SCont s) (n ^ CONT_SCALING_POWER)
           (vec3_sub (vec3_muls (m0 * s') A) (vec3_muls (m0 * c) B)))
      else (CCont s, SCont s) in
    mksums (upd a cdip (CDip s)) (upd a sdip (SDip s))
           (upd a clor (CLor s)) (upd a slor (SLor s))
           (fst piles) (snd piles)
  else s.

(** The four nested loops. *)
Definition lattice_reduction (g : args) (h : helix) : sums :=
  for_loop (scx g) (fun i =>
    for_loop (scy g) (fun j =>
      for_loop (scz g) (fun k =>
        for_loop (in_natoms g) (fun a => tuple_step g h i j k a))))
    (sums_init g).

(** *** Angle sweep, dipolar and Lorentz fields (lines 448-495) *)

(** [angle = 2*M_PI*((float) angn / (float) in_nangles)]. *)
Definition angle_of (g : args) (angn : nat) : R :=
  2 * PI * (INR angn / INR (in_nangles g)).

(** The loops over atoms at lines 455 and 477: the sum of
    [stagmom[a] * (cos(angle)*C[a] - sin(angle)*S[a])], from zero. *)
Definition field_sum (natoms : nat) (m0 : list R) (C S : list vec3)
  (angle : R) : vec3 :=
  for_loop natoms
    (fun a B =>
       vec3_add B
         (vec3_muls (rd m0 a)
            (vec3_sub (vec3_muls (cos angle) (rdv C a))
                      (vec3_muls (sin angle) (rdv S a)))))
    vec3_zero.

(** [out[3*angn+0] = v.x; out[3*angn+1] = v.y; out[3*angn+2] = v.z]. *)
Definition store3 (angn : nat) (v : vec3) (out : list R) : list R :=
  upd (3 * angn + 2) (z v) (upd (3 * angn + 1) (y v)
    (upd (3 * angn + 0) (x v) out)).

(** The vector held at index [angn] of an output array. *)
Definition out_at (out : list R) (angn : nat) : vec3 :=
  mkvec3 (rd out (3 * angn + 0)) (rd out (3 * angn + 1))
         (rd out (3 * angn + 2)).

Definition BDip_at (g : args) (h : helix) (s : sums) (angn : nat) : vec3 :=
  vec3_muls 0.9274009
    (field_sum (in_natoms g) (stagmom h) (CDip s) (SDip s)
               (angle_of g angn)).

Definition BLor_at (g : args) (h : helix) (s : sums) (angn : nat) : vec3 :=
  vec3_muls (0.33333333333 * 11.654064)
    (vec3_muls (3 / (4 * PI * radius g ^ 3))
       (field_sum (in_natoms g) (stagmom h) (CLor s) (SLor s)
                  (angle_of g angn))).

(** The output arrays hold [3 * in_nangles] doubles; what they hold on entry
    is never read. *)
Definition out_init (g : args) : list R := repeat 0 (3 * in_nangles g).

(** First section: fills [out_field_dip] and [out_field_lor]. *)
Definition dip_lor_pass (g : args) (h : helix) (s : sums)
  : list R * list R :=
  for_loop (in_nangles g)
    (fun angn o =>
       (store3 angn (BDip_at g h s angn) (fst o),
        store3 angn (BLor_at g h s angn) (snd o)))
    (out_init g, out_init g).

(** *** Angle sweep, contact field (lines 503-540) *)

Record contact : Type := mkcontact {
  CBCont : vec3;
  SBCont : vec3;
  SumOfWeights : R;
  NofM : Z;
  odd : list diagnostic
}.

Definition contact_init : contact :=
  mkcontact vec3_zero vec3_zero 0 0%Z [].

(** Body of the loop over the pile positions at line 505. *)
Definition contact_body (CC SC : pile) (i : nat) (t : contact) : contact :=
  if Rgeb (rd (ranks CC) i) 0
     && Rltb (Rabs (rd (ranks CC) i - rd (ranks SC) i)) EPS
  then
    mkcontact
      (vec3_add (CBCont t)
                (vec3_muls (1 / rd (ranks CC) i) (rdv (elements CC) i)))
      (vec3_add (SBCont t)
                (vec3_muls (1 / rd (ranks SC) i) (rdv (elements SC) i)))
      (SumOfWeights t + 1 / rd (ranks CC) i)
      (NofM t + 1)%Z
      (odd t)
  else
    mkcontact (CBCont t) (SBCont t) (SumOfWeights t) (NofM t)
              (odd t ++ [VeryOdd (rd (ranks CC) i) (rd (ranks SC) i)]).

Definition contact_sums (nnn : nat) (CC SC : pile) : contact :=
  for_loop nnn (contact_body CC SC) contact_init.

(** Body of the loop over angles at line 524; [BCont] is carried from one
    angle to the next and starts from zero. *)
Definition contact_angle (g : args) (t : contact) (angn : nat)
  (st : vec3 * list R) : vec3 * list R :=
  let angle := angle_of g angn in
  let BCont :=
    if (0 <? NofM t)%Z then
      vec3_muls (1 / SumOfWeights t * 7.769376)
        (vec3_sub (vec3_muls (cos angle) (CBCont t))
                  (vec3_muls (sin angle) (SBCont t)))
    else fst st in
  (BCont, store3 angn BCont (snd st)).

(** Second section: fills [out_field_cont]. *)
Definition contact_pass (g : args) (t : contact) : list R :=
  snd (for_loop (in_nangles g) (contact_angle g t) (vec3_zero, out_init g)).

(** *** The routine *)

Record result : Type := mkresult {
  out_field_cont : list R;
  out_field_dip : list R;
  out_field_lor : list R;
  stdout : list diagnostic
}.

Definition FastIncommSum (g : args) : result :=
  let h := helix_stage g in
  let s := lattice_reduction g h in
  let o := dip_lor_pass g h s in
  let t := contact_sums (nnn_for_cont g) (CCont s) (SCont s) in
  mkresult (contact_pass g t) (fst o) (snd o) (printed h ++ odd t).

(** *** What the statements call the contribution of a tuple *)

(** The dipolar tensor of the spec applied to [X], for the displacement [r]:
    [(1/n^3) (3 (X.u) u - X)] with [n] the norm of [r] and [u = r/n]. *)
Definition dipolar_tensor (X r : vec3) : vec3 :=
  let n := vec3_norm r in
  let u := vec3_divs r n in
  vec3_muls (1 / n ^ 3) (vec3_sub (vec3_muls (3 * vec3_dot X u) u) X).

(** [c.V + s.W] and [s.V - c.W]. *)
Definition cos_part (c s : R) (V W : vec3) : vec3 :=
  vec3_add (vec3_muls c V) (vec3_muls s W).

Definition sin_part (c s : R) (V W : vec3) : vec3 :=
  vec3_sub (vec3_muls s V) (vec3_muls c W).

(** The contribution of the tuple [(i,j,k,a)] to an accumulator: [term]
    inside the cutoff, nothing outside. *)
Definition inside (g : args) (i j k a : nat) (term : vec3) : vec3 :=
  if Rltb (dist g i j k a) (radius g) then term else vec3_zero.

(** [l[a] += d]. *)
Definition bump (a : nat) (d : vec3) (l : list vec3) : list vec3 :=
  upd a (vec3_add (rdv l a) d) l.

(** The four accumulators have [n] cells each. *)
Definition sized (n : nat) (s : sums) : Prop :=
  length (CDip s) = n /\ length (SDip s) = n /\
  length (CLor s) = n /\ length (SLor s) = n.

(** [F] adds [d a] to cell [a] of an array of [N] cells, for every [a]. *)
Definition adds (N : nat) (F : list vec3 -> list vec3) (d : nat -> vec3)
  : Prop :=
  forall l, length l = N ->
    length (F l) = N /\
    forall a, (a < N)%nat -> rdv (F l) a = vec3_add (rdv l a) (d a).


(** The condition of the contact pass on pile position [i]: the rank of the
    cosine pile is present (non-negative) and agrees with the rank of the
    sine pile within [EPS]. *)
Definition eligible (CC SC : pile) (i : nat) : bool :=
  Rgeb (rd (ranks CC) i) 0
  && Rltb (Rabs (rd (ranks CC) i - rd (ranks SC) i)) EPS.

(** The contact field for one angle, from the sums of the contact pass. *)
Definition BCont_of (t : contact) (angle : R) : vec3 :=
  vec3_muls (1 / SumOfWeights t * 7.769376)
    (vec3_sub (vec3_muls (cos angle) (CBCont t))
              (vec3_muls (sin angle) (SBCont t))).

(** ** Arrays, loops and vector algebra *)

Lemma upd_length {A : Type} (i : nat) (v : A) (l : list A) :
  length (upd i v l) = length l.
Proof.
  revert i; induction l as [|h t IH]; intros [|i]; simpl; auto.
Qed.

Lemma nth_upd_same {A : Type} (i : nat) (v d : A) (l : list A) :
  (i < length l)%nat -> nth i (upd i v l) d = v.
Proof.
  revert i; induction l as [|h t IH]; intros [|i] Hi; simpl in *;
    try lia; auto.
  apply IH; lia.
Qed.

Lemma nth_upd_other {A : Type} (i j : nat) (v d : A) (l : list A) :
  i <> j -> nth j (upd i v l) d = nth j l d.
Proof.
  revert i j; induction l as [|h t IH]; intros [|i] [|j] Hij; simpl;
    try congruence; auto.
Qed.

Lemma rdv_upd_same (i : nat) (v : vec3) (l : list vec3) :
  (i < length l)%nat -> rdv (upd i v l) i = v.
Proof. apply nth_upd_same. Qed.

Lemma rdv_upd_other (i j : nat) (v : vec3) (l : list vec3) :
  i <> j -> rdv (upd i v l) j = rdv l j.
Proof. apply nth_upd_other. Qed.

Lemma rd_upd_same (i : nat) (v : R) (l : list R) :
  (i < length l)%nat -> rd (upd i v l) i = v.
Proof. apply nth_upd_same. Qed.

Lemma rd_upd_other (i j : nat) (v : R) (l : list R) :
  i <> j -> rd (upd i v l) j = rd l j.
Proof. apply nth_upd_other. Qed.

Lemma upd_outside {A : Type} (i : nat) (v : A) (l : list A) :
  (length l <= i)%nat -> upd i v l = l.
Proof.
  revert i; induction l as [|h t IH]; intros [|i] Hi; simpl in *;
    try lia; auto.
  f_equal; apply IH; lia.
Qed.

Lemma for_loop_0 {S : Type} (body : nat -> S -> S) (s : S) :
  for_loop 0 body s = s.
Proof. reflexivity. Qed.

Lemma for_loop_S {S : Type} (n : nat) (body : nat -> S -> S) (s : S) :
  for_loop (Datatypes.S n) body s = body n (for_loop n body s).
Proof.
  unfold for_loop. rewrite seq_S, fold_left_app. reflexivity.
Qed.

(** A loop seen through a projection of its state. *)
Lemma for_loop_proj {S T : Type} (P : S -> T) (body : nat -> S -> S)
  (body' : nat -> T -> T) (n : nat) (s : S) :
  (forall a st, P (body a st) = body' a (P st)) ->
  P (for_loop n body s) = for_loop n body' (P s).
Proof.
  intros H. induction n as [|n IH].
  - reflexivity.
  - rewrite !for_loop_S, H, IH. reflexivity.
Qed.


(** An invariant carried through a loop. *)
Lemma for_loop_inv {S : Type} (I : S -> Prop) (body : nat -> S -> S)
  (n : nat) (s : S) :
  I s -> (forall a st, (a < n)%nat -> I st -> I (body a st)) ->
  I (for_loop n body s).
Proof.
  intros H0 Hstep. induction n as [|n IH].
  - exact H0.
  - rewrite for_loop_S. apply Hstep; [lia|]. apply IH.
    intros; apply Hstep; auto; lia.
Qed.

Lemma vec3_add_zero_r (v : vec3) : vec3_add v vec3_zero = v.
Proof. vec3_ring. Qed.

Lemma vec3_add_zero_l (v : vec3) : vec3_add vec3_zero v = v.
Proof. vec3_ring. Qed.

Lemma vec3_add_assoc (u v w : vec3) :
  vec3_add (vec3_add u v) w = vec3_add u (vec3_add v w).
Proof. vec3_ring. Qed.


Lemma vec3_muls_inv (s : R) (v : vec3) :
  vec3_muls (1 / s) v = vec3_divs v s.
Proof. apply vec3_eq; unfold vec3_muls, vec3_divs, Rdiv; simpl; ring. Qed.

Lemma Rltb_true (u v : R) : u < v -> Rltb u v = true.
Proof. intros H; unfold Rltb; destruct (Rlt_dec u v); [reflexivity | contradiction]. Qed.

Lemma Rltb_false (u v : R) : ~ u < v -> Rltb u v = false.
Proof. intros H; unfold Rltb; destruct (Rlt_dec u v); [contradiction | reflexivity]. Qed.


Lemma Rgtb_false (u v : R) : ~ u > v -> Rgtb u v = false.
Proof. intros H; unfold Rgtb; destruct (Rgt_dec u v); [contradiction | reflexivity]. Qed.

Lemma Rgeb_true (u v : R) : u >= v -> Rgeb u v = true.
Proof. intros H; unfold Rgeb; destruct (Rge_dec u v); [reflexivity | contradiction]. Qed.

Lemma Rgeb_false (u v : R) : ~ u >= v -> Rgeb u v = false.
Proof. intros H; unfold Rgeb; destruct (Rge_dec u v); [contradiction | reflexivity]. Qed.

(** A loop that stores [f a] at index [a]. *)
Lemma fill_length {A : Type} (f : nat -> A) (n : nat) (l : list A) :
  length (for_loop n (fun a l' => upd a (f a) l') l) = length l.
Proof.
  apply for_loop_inv with (I := fun l' => length l' = length l); auto.
  intros a st _ H. rewrite upd_length. exact H.
Qed.

Lemma fill_nth {A : Type} (f : nat -> A) (d : A) (n : nat) (l : list A)
  (a : nat) :
  (a < n)%nat -> (n <= length l)%nat ->
  nth a (for_loop n (fun a' l' => upd a' (f a') l') l) d = f a.
Proof.
  induction n as [|n IH]; intros Ha Hn; [lia|].
  rewrite for_loop_S.
  destruct (Nat.eq_dec a n) as [->|Hne].
  - apply nth_upd_same. rewrite fill_length. lia.
  - rewrite nth_upd_other by congruence. apply IH; lia.
Qed.

(** ** Helix decomposition *)

Lemma helix_stagmom (g : args) (a : nat) :
  (a < in_natoms g)%nat ->
  rd (stagmom (helix_stage g)) a = vec3_norm (fc_re g a).
Proof.
  intros Ha. unfold helix_stage, rd.
  rewrite (for_loop_proj stagmom (helix_body g)
             (fun a' l => upd a' (vec3_norm (fc_re g a')) l))
    by reflexivity.
  rewrite fill_nth; [reflexivity | exact Ha |].
  simpl. rewrite repeat_length. lia.
Qed.

Lemma helix_Ahelix (g : args) (a : nat) :
  (a < in_natoms g)%nat ->
  rdv (Ahelix (helix_stage g)) a =
  vec3_muls (1 / vec3_norm (fc_re g a)) (fc_re g a).
Proof.
  intros Ha. unfold helix_stage, rdv.
  rewrite (for_loop_proj Ahelix (helix_body g)
             (fun a' l =>
                upd a' (vec3_muls (1 / vec3_norm (fc_re g a')) (fc_re g a'))
                    l))
    by reflexivity.
  rewrite fill_nth; [reflexivity | exact Ha |].
  simpl. rewrite repeat_length. lia.
Qed.

Lemma helix_Bhelix (g : args) (a : nat) :
  (a < in_natoms g)%nat ->
  rdv (Bhelix (helix_stage g)) a =
  vec3_muls (1 / vec3_norm (fc_im g a)) (fc_im g a).
Proof.
  intros Ha. unfold helix_stage, rdv.
  rewrite (for_loop_proj Bhelix (helix_body g)
             (fun a' l =>
                upd a' (vec3_muls (1 / vec3_norm (fc_im g a')) (fc_im g a'))
                    l))
    by reflexivity.
  rewrite fill_nth; [reflexivity | exact Ha |].
  simpl. rewrite repeat_length. lia.
Qed.

Lemma helix_refatmpos (g : args) (a : nat) :
  (a < in_natoms g)%nat ->
  rdv (refatmpos (helix_stage g)) a =
  mat3_vmul (centred g (in_positions g) (3 * a)) (sc_lat g).
Proof.
  intros Ha. unfold helix_stage, rdv.
  rewrite (for_loop_proj refatmpos (helix_body g)
             (fun a' l =>
                upd a' (mat3_vmul (centred g (in_positions g) (3 * a'))
                                  (sc_lat g)) l))
    by reflexivity.
  rewrite fill_nth; [reflexivity | exact Ha |].
  simpl. rewrite repeat_length. lia.
Qed.


Lemma store3_length (angn : nat) (v : vec3) (out : list R) :
  length (store3 angn v out) = length out.
Proof. unfold store3. rewrite !upd_length. reflexivity. Qed.



(** C6.  For every atom [a], [stagmom[a]] is the norm of the real part of the
    Fourier coefficient, [Ahelix[a]] is the real part divided by
    [stagmom[a]], and [Bhelix[a]] is the imaginary part divided by its own
    norm; the real part is read at offsets [6a], [6a+2], [6a+4] of [in_fc]
    and the imaginary part at [6a+1], [6a+3], [6a+5]. *)
Theorem helix_decomposition (g : args) (a : nat) :
  (a < in_natoms g)%nat ->
  let h := helix_stage g in
  let re := mkvec3 (rd (in_fc g) (6 * a)) (rd (in_fc g) (6 * a + 2))
                   (rd (in_fc g) (6 * a + 4)) in
  let im := mkvec3 (rd (in_fc g) (6 * a + 1)) (rd (in_fc g) (6 * a + 3))
                   (rd (in_fc g) (6 * a + 5)) in
  rd (stagmom h) a = vec3_norm re /\
  rdv (Ahelix h) a = vec3_divs re (rd (stagmom h) a) /\
  rdv (Bhelix h) a = vec3_divs im (vec3_norm im).
Proof.
  intros Ha h re im. subst h.
  rewrite helix_stagmom, helix_Ahelix, helix_Bhelix by exact Ha.
  change (fc_re g a) with re. change (fc_im g a) with im.
  rewrite !vec3_muls_inv. auto.
Qed.


(** ** Lattice reduction *)



Lemma upd_self {A : Type} (i : nat) (d : A) (l : list A) :
  upd i (nth i l d) l = l.
Proof.
  revert i; induction l as [|h t IH]; intros [|i]; simpl; auto.
  f_equal. apply IH.
Qed.

Lemma bump_zero (a : nat) (l : list vec3) : bump a vec3_zero l = l.
Proof.
  unfold bump. rewrite vec3_add_zero_r. apply upd_self.
Qed.

Lemma rdv_bump_same (a : nat) (d : vec3) (l : list vec3) :
  (a < length l)%nat -> rdv (bump a d l) a = vec3_add (rdv l a) d.
Proof. apply rdv_upd_same. Qed.

Lemma rdv_bump_other (a b : nat) (d : vec3) (l : list vec3) :
  a <> b -> rdv (bump a d l) b = rdv l b.
Proof. apply rdv_upd_other. Qed.

Lemma bump_length (a : nat) (d : vec3) (l : list vec3) :
  length (bump a d l) = length l.
Proof. apply upd_length. Qed.

(** The accumulators seen one at a time: each step is a [bump]. *)
Section Projections.

Variables (g : args) (h : helix) (i j k a : nat).

Let r := disp g i j k a.
Let c := cos (theta g h i j k a).
Let sn := sin (theta g h i j k a).
Let A := rdv (Ahelix h) a.
Let B := rdv (Bhelix h) a.

Lemma tuple_step_CDip (s : sums) :
  CDip (tuple_step g h i j k a s)
  = bump a (inside g i j k a
              (cos_part c sn (dipolar_tensor A r) (dipolar_tensor B r)))
         (CDip s).
Proof.
  unfold tuple_step, inside, dist. fold r c sn A B.
  destruct (Rltb (vec3_norm r) (radius g)).
  - cbn [CDip]. unfold bump. f_equal. f_equal.
    unfold cos_part, dipolar_tensor. vec3_ring.
  - symmetry. apply bump_zero.
Qed.

Lemma tuple_step_SDip (s : sums) :
  SDip (tuple_step g h i j k a s)
  = bump a (inside g i j k a
              (sin_part c sn (dipolar_tensor A r) (dipolar_tensor B r)))
         (SDip s).
Proof.
  unfold tuple_step, inside, dist. fold r c sn A B.
  destruct (Rltb (vec3_norm r) (radius g)).
  - cbn [SDip]. unfold bump. f_equal. f_equal.
    unfold sin_part, dipolar_tensor. vec3_ring.
  - symmetry. apply bump_zero.
Qed.

Lemma tuple_step_CLor (s : sums) :
  CLor (tuple_step g h i j k a s)
  = bump a (inside g i j k a (cos_part c sn A B)) (CLor s).
Proof.
  unfold tuple_step, inside, dist. fold r c sn A B.
  destruct (Rltb (vec3_norm r) (radius g)).
  - reflexivity.
  - symmetry. apply bump_zero.
Qed.

Lemma tuple_step_SLor (s : sums) :
  SLor (tuple_step g h i j k a s)
  = bump a (inside g i j k a (sin_part c sn A B)) (SLor s).
Proof.
  unfold tuple_step, inside, dist. fold r c sn A B.
  destruct (Rltb (vec3_norm r) (radius g)).
  - reflexivity.
  - symmetry. apply bump_zero.
Qed.

End Projections.

Lemma adds_atoms_upto (N : nat) (f : nat -> vec3) (l : list vec3) (m : nat) :
  length l = N -> (m <= N)%nat ->
  length (for_loop m (fun a => bump a (f a)) l) = N /\
  forall a, (a < N)%nat ->
    rdv (for_loop m (fun a => bump a (f a)) l) a
    = if (a <? m)%nat then vec3_add (rdv l a) (f a) else rdv l a.
Proof.
  intros HN. induction m as [|m IH]; intros Hm.
  - split; [exact HN|]. intros a _. reflexivity.
  - destruct IH as [IHl IHv]; [lia|]. rewrite for_loop_S. split.
    + rewrite bump_length. exact IHl.
    + intros a Ha.
      destruct (Nat.eq_dec a m) as [->|Hne].
      * rewrite rdv_bump_same by lia. rewrite IHv by lia.
        rewrite (proj2 (Nat.ltb_ge m m)) by lia.
        rewrite (proj2 (Nat.ltb_lt m (S m))) by lia. reflexivity.
      * rewrite rdv_bump_other by congruence. rewrite IHv by exact Ha.
        destruct (Nat.ltb_spec a m), (Nat.ltb_spec a (S m));
          try lia; reflexivity.
Qed.

Lemma adds_atoms (N : nat) (f : nat -> vec3) :
  adds N (for_loop N (fun a => bump a (f a))) f.
Proof.
  intros l HN.
  destruct (adds_atoms_upto N f l N HN (Nat.le_refl N)) as [Hl Hv].
  split; [exact Hl|]. intros a Ha. rewrite Hv by exact Ha.
  rewrite (proj2 (Nat.ltb_lt a N)) by exact Ha. reflexivity.
Qed.

Lemma adds_loop (N n : nat) (F : nat -> list vec3 -> list vec3)
  (d : nat -> nat -> vec3) :
  (forall t, adds N (F t) (d t)) ->
  adds N (for_loop n F) (fun a => vsum (fun t => d t a) n).
Proof.
  intros HF l HN. induction n as [|n IH].
  - split; [exact HN|]. intros a _. simpl. rewrite vec3_add_zero_r.
    reflexivity.
  - destruct IH as [IHl IHv]. rewrite for_loop_S.
    destruct (HF n _ IHl) as [Hl Hv]. split; [exact Hl|].
    intros a Ha. rewrite Hv, IHv by exact Ha. simpl.
    apply vec3_add_assoc.
Qed.

(** Four nested loops of bumps add the triple sum of the terms. *)
Lemma nested_bumps (N nx ny nz : nat) (f : nat -> nat -> nat -> nat -> vec3)
  (a : nat) :
  (a < N)%nat ->
  rdv (for_loop nx (fun i =>
         for_loop ny (fun j =>
           for_loop nz (fun k =>
             for_loop N (fun a' => bump a' (f i j k a')))))
         (repeat vec3_zero N)) a
  = vsum (fun i => vsum (fun j => vsum (fun k => f i j k a) nz) ny) nx.
Proof.
  intros Ha.
  pose proof (adds_loop N nx
    (fun i => for_loop ny (fun j => for_loop nz (fun k =>
       for_loop N (fun a' => bump a' (f i j k a')))))
    (fun i a' => vsum (fun j => vsum (fun k => f i j k a') nz) ny)) as H.
  destruct (H (fun i =>
      adds_loop N ny
        (fun j => for_loop nz (fun k =>
           for_loop N (fun a' => bump a' (f i j k a'))))
        (fun j a' => vsum (fun k => f i j k a') nz)
        (fun j =>
           adds_loop N nz
             (fun k => for_loop N (fun a' => bump a' (f i j k a')))
             (fun k a' => f i j k a')
             (fun k => adds_atoms N (f i j k))))
      (repeat vec3_zero N) (repeat_length _ _)) as [_ Hv].
  rewrite Hv by exact Ha.
  unfold rdv. rewrite nth_repeat. apply vec3_add_zero_l.
Qed.

(** ** Output arrays *)

Lemma out_at_store3_same (angn : nat) (v : vec3) (out : list R) :
  (3 * angn + 2 < length out)%nat -> out_at (store3 angn v out) angn = v.
Proof.
  intros H. unfold out_at, store3. destruct v as [vx vy vz]. cbn [x y z].
  f_equal.
  - rewrite !rd_upd_other by lia. apply rd_upd_same. lia.
  - rewrite rd_upd_other by lia. apply rd_upd_same.
    rewrite upd_length. lia.
  - apply rd_upd_same. rewrite !upd_length. lia.
Qed.

Lemma out_at_store3_other (angn b : nat) (v : vec3) (out : list R) :
  angn <> b -> out_at (store3 angn v out) b = out_at out b.
Proof.
  intros H. unfold out_at, store3. f_equal; rewrite !rd_upd_other by lia;
    reflexivity.
Qed.

(** A loop that stores [f angn] at index [angn] of an output array. *)
Lemma store_loop (f : nat -> vec3) (N n : nat) (out : list R) (angn : nat) :
  length out = (3 * N)%nat -> (n <= N)%nat -> (angn < n)%nat ->
  out_at (for_loop n (fun b o => store3 b (f b) o) out) angn = f angn.
Proof.
  intros HN. induction n as [|n IH]; intros Hn Ha; [lia|].
  rewrite for_loop_S.
  assert (Hlen : length (for_loop n (fun b o => store3 b (f b) o) out)
                 = (3 * N)%nat).
  { apply for_loop_inv with (I := fun o => length o = (3 * N)%nat); auto.
    intros b st _ H. rewrite store3_length. exact H. }
  destruct (Nat.eq_dec angn n) as [->|Hne].
  - apply out_at_store3_same. lia.
  - rewrite out_at_store3_other by congruence. apply IH; lia.
Qed.

Lemma out_init_length (g : args) : length (out_init g) = (3 * in_nangles g)%nat.
Proof. apply repeat_length. Qed.

Lemma out_field_dip_at (g : args) (h : helix) (s : sums) (angn : nat) :
  (angn < in_nangles g)%nat ->
  out_at (fst (dip_lor_pass g h s)) angn = BDip_at g h s angn.
Proof.
  intros Ha. unfold dip_lor_pass.
  rewrite (for_loop_proj fst _
             (fun b o => store3 b (BDip_at g h s b) o)) by reflexivity.
  apply (store_loop (BDip_at g h s) (in_nangles g)); auto.
  apply out_init_length.
Qed.

Lemma out_field_lor_at (g : args) (h : helix) (s : sums) (angn : nat) :
  (angn < in_nangles g)%nat ->
  out_at (snd (dip_lor_pass g h s)) angn = BLor_at g h s angn.
Proof.
  intros Ha. unfold dip_lor_pass.
  rewrite (for_loop_proj snd _
             (fun b o => store3 b (BLor_at g h s b) o)) by reflexivity.
  apply (store_loop (BLor_at g h s) (in_nangles g)); auto.
  apply out_init_length.
Qed.

(** The loop over atoms is the sum of its terms. *)
Lemma field_sum_vsum (natoms : nat) (m0 : list R) (C S : list vec3)
  (angle : R) :
  field_sum natoms m0 C S angle
  = vsum (fun a =>
            vec3_muls (rd m0 a)
              (vec3_sub (vec3_muls (cos angle) (rdv C a))
                        (vec3_muls (sin angle) (rdv S a))))
         natoms.
Proof.
  unfold field_sum. induction natoms as [|n IH].
  - reflexivity.
  - rewrite for_loop_S, IH. reflexivity.
Qed.

(** The field reconstructed from the sums, as the statements write it. *)
Lemma vsum_ext (f f' : nat -> vec3) (n : nat) :
  (forall a, (a < n)%nat -> f a = f' a) -> vsum f n = vsum f' n.
Proof.
  induction n as [|n IH]; intros H; simpl.
  - reflexivity.
  - rewrite IH, H by (auto; intros; apply H; lia). reflexivity.
Qed.


Lemma angle_of_eq (g : args) (n : nat) :
  angle_of g n = 2 * PI * INR n / INR (in_nangles g).
Proof. unfold angle_of, Rdiv. ring. Qed.

(** C2, with the Lorentz constant the code has.  For every angle index
    [n < in_nangles], with [angle = 2 pi n / in_nangles], the dipolar vector
    stored at index [n] is [0.9274009] times the sum over the atoms of
    [m0[a] (cos(angle) CDip[a] - sin(angle) SDip[a])], and the Lorentz vector
    stored at index [n] is [0.33333333333 * 11.654064] times
    [3 / (4 pi radius^3)] times the same sum over [CLor] and [SLor].  This
    holds for any helix data and accumulators the pass is run on;
    [FastIncommSum] runs it on those it has computed. *)
Theorem dip_lor_outputs (g : args) (h : helix) (s : sums) (n : nat) :
  (n < in_nangles g)%nat ->
  let angle := 2 * PI * INR n / INR (in_nangles g) in
  let field := fun C S =>
    vsum (fun a =>
            vec3_muls (rd (stagmom h) a)
              (vec3_sub (vec3_muls (cos angle) (rdv C a))
                        (vec3_muls (sin angle) (rdv S a))))
         (in_natoms g) in
  out_at (fst (dip_lor_pass g h s)) n
    = vec3_muls 0.9274009 (field (CDip s) (SDip s)) /\
  out_at (snd (dip_lor_pass g h s)) n
    = vec3_muls (0.33333333333 * 11.654064 * (3 / (4 * PI * radius g ^ 3)))
                (field (CLor s) (SLor s)) /\
  out_field_dip (FastIncommSum g)
    = fst (dip_lor_pass g (helix_stage g)
             (lattice_reduction g (helix_stage g))) /\
  out_field_lor (FastIncommSum g)
    = snd (dip_lor_pass g (helix_stage g)
             (lattice_reduction g (helix_stage g))).
Proof.
  intros Hn angle field. subst field. unfold angle.
  rewrite <- angle_of_eq.
  rewrite out_field_dip_at, out_field_lor_at by exact Hn.
  unfold BDip_at, BLor_at. rewrite !field_sum_vsum.
  split; [reflexivity|]. split; [vec3_ring|]. split; reflexivity.
Qed.

(** ** Contact pass *)

Lemma contact_body_eligible (CC SC : pile) (i : nat) (t : contact) :
  eligible CC SC i = true ->
  contact_body CC SC i t =
  mkcontact
    (vec3_add (CBCont t)
              (vec3_muls (1 / rd (ranks CC) i) (rdv (elements CC) i)))
    (vec3_add (SBCont t)
              (vec3_muls (1 / rd (ranks SC) i) (rdv (elements SC) i)))
    (SumOfWeights t + 1 / rd (ranks CC) i) (NofM t + 1)%Z (odd t).
Proof.
  intros H. unfold contact_body. unfold eligible in H. rewrite H.
  reflexivity.
Qed.

Lemma contact_body_not_eligible (CC SC : pile) (i : nat) (t : contact) :
  eligible CC SC i = false ->
  contact_body CC SC i t =
  mkcontact (CBCont t) (SBCont t) (SumOfWeights t) (NofM t)
            (odd t ++ [VeryOdd (rd (ranks CC) i) (rd (ranks SC) i)]).
Proof.
  intros H. unfold contact_body. unfold eligible in H. rewrite H.
  reflexivity.
Qed.

Lemma contact_sums_spec (nnn : nat) (CC SC : pile) :
  let t := contact_sums nnn CC SC in
  CBCont t
    = vsum (fun i => if eligible CC SC i
                     then vec3_divs (rdv (elements CC) i) (rd (ranks CC) i)
                     else vec3_zero) nnn /\
  SBCont t
    = vsum (fun i => if eligible CC SC i
                     then vec3_divs (rdv (elements SC) i) (rd (ranks SC) i)
                     else vec3_zero) nnn /\
  SumOfWeights t
    = rsum (fun i => if eligible CC SC i then 1 / rd (ranks CC) i else 0)
           nnn /\
  NofM t = Z.of_nat (length (filter (eligible CC SC) (seq 0 nnn))).
Proof.
  unfold contact_sums. induction nnn as [|n IH].
  - simpl. auto.
  - destruct IH as (H1 & H2 & H3 & H4).
    rewrite for_loop_S, seq_S, filter_app, length_app. cbn [vsum rsum].
    rewrite <- H1, <- H2, <- H3. cbn [filter Nat.add].
    destruct (eligible CC SC n) eqn:E.
    + rewrite contact_body_eligible by exact E.
      cbn [CBCont SBCont SumOfWeights NofM length].
      rewrite !vec3_muls_inv, H4. repeat split. lia.
    + rewrite contact_body_not_eligible by exact E.
      cbn [CBCont SBCont SumOfWeights NofM length].
      rewrite !vec3_add_zero_r, H4. repeat split; [ring | lia].
Qed.

(** Every pile position that is not eligible prints its two ranks. *)
Lemma contact_sums_odd (nnn : nat) (CC SC : pile) (i : nat) :
  (i < nnn)%nat -> eligible CC SC i = false ->
  In (VeryOdd (rd (ranks CC) i) (rd (ranks SC) i))
     (odd (contact_sums nnn CC SC)).
Proof.
  unfold contact_sums. induction nnn as [|n IH]; intros Hi E; [lia|].
  rewrite for_loop_S.
  destruct (Nat.eq_dec i n) as [->|Hne].
  - rewrite contact_body_not_eligible by exact E. cbn [odd].
    apply in_or_app. right. simpl. auto.
  - assert (Hin : In (VeryOdd (rd (ranks CC) i) (rd (ranks SC) i))
                     (odd (for_loop n (contact_body CC SC) contact_init)))
      by (apply IH; [lia | exact E]).
    destruct (eligible CC SC n) eqn:En.
    + rewrite contact_body_eligible by exact En. exact Hin.
    + rewrite contact_body_not_eligible by exact En. cbn [odd].
      apply in_or_app. left. exact Hin.
Qed.

(** The loop over angles of the contact section. *)
Lemma contact_loop (g : args) (t : contact) (m : nat) :
  (m <= in_nangles g)%nat ->
  let st := for_loop m (contact_angle g t) (vec3_zero, out_init g) in
  length (snd st) = (3 * in_nangles g)%nat /\
  ((0 <? NofM t)%Z = false -> fst st = vec3_zero) /\
  forall n, (n < m)%nat ->
    out_at (snd st) n
    = if (0 <? NofM t)%Z then BCont_of t (angle_of g n) else vec3_zero.
Proof.
  induction m as [|m IH]; intros Hm st; subst st.
  - cbn [for_loop seq fold_left fst snd].
    split; [apply out_init_length|]. split; [reflexivity|]. intros; lia.
  - destruct IH as (Hl & Hz & Hv); [lia|].
    rewrite for_loop_S.
    destruct (for_loop m (contact_angle g t) (vec3_zero, out_init g))
      as [B o]. cbn [fst snd] in *.
    unfold contact_angle. cbn [fst snd].
    split; [rewrite store3_length; exact Hl|].
    split; [intros E; rewrite E; apply Hz; exact E|].
    intros n Hn. destruct (Nat.eq_dec n m) as [->|Hne].
    + rewrite out_at_store3_same by lia.
      destruct (0 <? NofM t)%Z eqn:E; [reflexivity | apply Hz; reflexivity].
    + rewrite out_at_store3_other by congruence. apply Hv. lia.
Qed.

Lemma contact_pass_at (g : args) (t : contact) (n : nat) :
  (n < in_nangles g)%nat ->
  out_at (contact_pass g t) n
  = if (0 <? NofM t)%Z then BCont_of t (angle_of g n) else vec3_zero.
Proof.
  intros Hn. unfold contact_pass.
  apply (contact_loop g t (in_nangles g) (Nat.le_refl _)). exact Hn.
Qed.

(** C3.  The contact pass sums, over the pile positions [i] below
    [nnn_for_cont] whose cosine rank is non-negative and within [EPS] of the
    sine rank, [elements[i]/ranks[i]] of the cosine pile into [CBCont], of
    the sine pile into [SBCont], [1/ranks[i]] (cosine pile) into the weight
    sum, and counts them.  If the count is zero the contact vector is zero
    at every angle index; otherwise the vector at index [n] is
    [(1/weight_sum) * 7.769376 * (cos(angle) CBCont - sin(angle) SBCont)]
    with [angle = 2 pi n / in_nangles]. *)
Theorem contact_outputs (g : args) (CC SC : pile) :
  let t := contact_sums (nnn_for_cont g) CC SC in
  let ok := fun i =>
    Rgeb (rd (ranks CC) i) 0
    && Rltb (Rabs (rd (ranks CC) i - rd (ranks SC) i)) EPS in
  CBCont t
    = vsum (fun i => if ok i
                     then vec3_divs (rdv (elements CC) i) (rd (ranks CC) i)
                     else vec3_zero) (nnn_for_cont g) /\
  SBCont t
    = vsum (fun i => if ok i
                     then vec3_divs (rdv (elements SC) i) (rd (ranks SC) i)
                     else vec3_zero) (nnn_for_cont g) /\
  SumOfWeights t
    = rsum (fun i => if ok i then 1 / rd (ranks CC) i else 0)
           (nnn_for_cont g) /\
  NofM t = Z.of_nat (length (filter ok (seq 0 (nnn_for_cont g)))) /\
  (forall n, (n < in_nangles g)%nat ->
     let angle := 2 * PI * INR n / INR (in_nangles g) in
     out_at (contact_pass g t) n
     = if (NofM t =? 0)%Z then vec3_zero
       else vec3_muls (1 / SumOfWeights t * 7.769376)
              (vec3_sub (vec3_muls (cos angle) (CBCont t))
                        (vec3_muls (sin angle) (SBCont t)))) /\
  out_field_cont (FastIncommSum g)
  = contact_pass g
      (contact_sums (nnn_for_cont g)
         (CCont (lattice_reduction g (helix_stage g)))
         (SCont (lattice_reduction g (helix_stage g)))).
Proof.
  intros t ok.
  destruct (contact_sums_spec (nnn_for_cont g) CC SC) as (H1 & H2 & H3 & H4).
  fold t in H1, H2, H3, H4. change (eligible CC SC) with ok in *.
  repeat split; auto.
  intros n Hn angle. rewrite contact_pass_at by exact Hn.
  unfold angle. rewrite <- angle_of_eq.
  assert (E : (0 <? NofM t)%Z = negb (NofM t =? 0)%Z).
  { rewrite H4. destruct (length (filter ok (seq 0 (nnn_for_cont g))));
      reflexivity. }
  rewrite E. destruct (NofM t =? 0)%Z; reflexivity.
Qed.

(** C8, as the code has it.  When the ranks of the cosine and sine piles at
    a position [i < nnn_for_cont] differ by more than [EPS], the contact
    pass prints a diagnostic carrying the two ranks, and the position
    contributes nothing: the sums, the weight sum and the count are left as
    they were. *)
Theorem rank_mismatch_reported_and_dropped (nnn : nat) (CC SC : pile)
  (i : nat) :
  (i < nnn)%nat ->
  Rabs (rd (ranks CC) i - rd (ranks SC) i) > EPS ->
  In (VeryOdd (rd (ranks CC) i) (rd (ranks SC) i))
     (odd (contact_sums nnn CC SC)) /\
  forall t,
    CBCont (contact_body CC SC i t) = CBCont t /\
    SBCont (contact_body CC SC i t) = SBCont t /\
    SumOfWeights (contact_body CC SC i t) = SumOfWeights t /\
    NofM (contact_body CC SC i t) = NofM t.
Proof.
  intros Hi Hgt.
  assert (E : eligible CC SC i = false).
  { unfold eligible. rewrite (Rltb_false _ EPS) by lra.
    apply andb_false_r. }
  split.
  - apply contact_sums_odd; assumption.
  - intros t. rewrite contact_body_not_eligible by exact E. auto.
Qed.

(** ** The reduction as a whole *)

(** The cosine dipolar sum of atom [a] after the reduction is the sum, over
    the replicas inside the cutoff, of [c.D(A[a]) + s.D(B[a])]; likewise for
    the other three accumulators. *)
Theorem lattice_reduction_totals (g : args) (h : helix) (a : nat) :
  (a < in_natoms g)%nat ->
  let s := lattice_reduction g h in
  let A := rdv (Ahelix h) a in
  let B := rdv (Bhelix h) a in
  let c := fun i j k => cos (theta g h i j k a) in
  let sn := fun i j k => sin (theta g h i j k a) in
  let D := fun X i j k => dipolar_tensor X (disp g i j k a) in
  let total := fun f : nat -> nat -> nat -> vec3 =>
    vsum (fun i => vsum (fun j => vsum (fun k => inside g i j k a (f i j k))
                                       (scz g)) (scy g)) (scx g) in
  rdv (CDip s) a
    = total (fun i j k =>
               cos_part (c i j k) (sn i j k) (D A i j k) (D B i j k)) /\
  rdv (SDip s) a
    = total (fun i j k =>
               sin_part (c i j k) (sn i j k) (D A i j k) (D B i j k)) /\
  rdv (CLor s) a
    = total (fun i j k => cos_part (c i j k) (sn i j k) A B) /\
  rdv (SLor s) a
    = total (fun i j k => sin_part (c i j k) (sn i j k) A B).
Proof.
  intros Ha s A B c sn D total. subst s total. unfold lattice_reduction.
  repeat split.
  - rewrite (for_loop_proj CDip _
      (fun i => for_loop (scy g) (fun j => for_loop (scz g) (fun k =>
         for_loop (in_natoms g) (fun a' =>
           bump a' (inside g i j k a'
             (cos_part (cos (theta g h i j k a')) (sin (theta g h i j k a'))
                (dipolar_tensor (rdv (Ahelix h) a') (disp g i j k a'))
                (dipolar_tensor (rdv (Bhelix h) a') (disp g i j k a'))))))))).
    + cbn [CDip sums_init]. rewrite nested_bumps by exact Ha. reflexivity.
    + intros i st. apply for_loop_proj. intros j st'.
      apply for_loop_proj. intros k st''. apply for_loop_proj.
      intros a' st3. apply tuple_step_CDip.
  - rewrite (for_loop_proj SDip _
      (fun i => for_loop (scy g) (fun j => for_loop (scz g) (fun k =>
         for_loop (in_natoms g) (fun a' =>
           bump a' (inside g i j k a'
             (sin_part (cos (theta g h i j k a')) (sin (theta g h i j k a'))
                (dipolar_tensor (rdv (Ahelix h) a') (disp g i j k a'))
                (dipolar_tensor (rdv (Bhelix h) a') (disp g i j k a'))))))))).
    + cbn [SDip sums_init]. rewrite nested_bumps by exact Ha. reflexivity.
    + intros i st. apply for_loop_proj. intros j st'.
      apply for_loop_proj. intros k st''. apply for_loop_proj.
      intros a' st3. apply tuple_step_SDip.
  - rewrite (for_loop_proj CLor _
      (fun i => for_loop (scy g) (fun j => for_loop (scz g) (fun k =>
         for_loop (in_natoms g) (fun a' =>
           bump a' (inside g i j k a'
             (cos_part (cos (theta g h i j k a')) (sin (theta g h i j k a'))
                (rdv (Ahelix h) a') (rdv (Bhelix h) a')))))))).
    + cbn [CLor sums_init]. rewrite nested_bumps by exact Ha. reflexivity.
    + intros i st. apply for_loop_proj. intros j st'.
      apply for_loop_proj. intros k st''. apply for_loop_proj.
      intros a' st3. apply tuple_step_CLor.
  - rewrite (for_loop_proj SLor _
      (fun i => for_loop (scy g) (fun j => for_loop (scz g) (fun k =>
         for_loop (in_natoms g) (fun a' =>
           bump a' (inside g i j k a'
             (sin_part (cos (theta g h i j k a')) (sin (theta g h i j k a'))
                (rdv (Ahelix h) a') (rdv (Bhelix h) a')))))))).
    + cbn [SLor sums_init]. rewrite nested_bumps by exact Ha. reflexivity.
    + intros i st. apply for_loop_proj. intros j st'.
      apply for_loop_proj. intros k st''. apply for_loop_proj.
      intros a' st3. apply tuple_step_SLor.
Qed.



Lemma ranks_pile_init (K' i : nat) :
  (i < K')%nat -> rd (ranks (pile_init K')) i = sentinel.
Proof.
  intros Hi. unfold ranks, pile_init, rd. cbn [held nElements map length app].
  rewrite Nat.sub_0_r. apply nth_repeat_lt. exact Hi.
Qed.

Lemma contact_sums_empty (nnn : nat) :
  NofM (contact_sums nnn (pile_init nnn) (pile_init nnn)) = 0%Z.
Proof.
  unfold contact_sums.
  apply for_loop_inv with (I := fun t => NofM t = 0%Z); [reflexivity|].
  intros i t Hi Ht. rewrite contact_body_not_eligible; [exact Ht|].
  unfold eligible. rewrite ranks_pile_init by exact Hi.
  rewrite Rgeb_false; [reflexivity|]. unfold sentinel. lra.
Qed.


Lemma dist_nonneg (g : args) (i j k a : nat) : 0 <= dist g i j k a.
Proof. unfold dist, vec3_norm. apply sqrt_pos. Qed.


(** ** The pile *)

Lemma insert_by_rank_length (r : R) (v : vec3) (l : list (R * vec3)) :
  length (insert_by_rank r v l) = S (length l).
Proof.
  induction l as [|e t IH]; simpl; [reflexivity|].
  destruct (Rltb r (fst e)); simpl; auto.
Qed.

Lemma insert_by_rank_perm (r : R) (v : vec3) (l : list (R * vec3)) :
  Permutation (insert_by_rank r v l) ((r, v) :: l).
Proof.
  induction l as [|e t IH]; simpl; [reflexivity|].
  destruct (Rltb r (fst e)); [reflexivity|].
  rewrite IH. apply perm_swap.
Qed.

Lemma Rltb_spec' (u v : R) :
  (Rltb u v = true /\ u < v) \/ (Rltb u v = false /\ v <= u).
Proof.
  unfold Rltb. destruct (Rlt_dec u v); [left | right]; split; auto; lra.
Qed.

Lemma insert_by_rank_sorted (r : R) (v : vec3) (l : list (R * vec3)) :
  StronglySorted rank_le l -> StronglySorted rank_le (insert_by_rank r v l).
Proof.
  induction 1 as [|e t Hs IH Hall]; simpl.
  - constructor; constructor.
  - destruct (Rltb_spec' r (fst e)) as [[-> Hlt]|[-> Hge]].
    + constructor; [constructor; assumption|].
      constructor; [unfold rank_le; simpl; lra|].
      eapply Forall_impl; [|exact Hall].
      intros e' He'. unfold rank_le in *. simpl. lra.
    + constructor; [exact IH|].
      eapply Permutation_Forall;
        [symmetry; apply insert_by_rank_perm|].
      constructor; [exact Hge | exact Hall].
Qed.

Lemma firstn_sorted (n : nat) (l : list (R * vec3)) :
  StronglySorted rank_le l -> StronglySorted rank_le (firstn n l).
Proof.
  intros H. revert n. induction H as [|e t Hs IH Hall]; intros [|n]; simpl;
    try constructor; auto.
  apply Forall_forall. intros e' He'.
  rewrite Forall_forall in Hall. apply Hall.
  rewrite <- (firstn_skipn n t). apply in_or_app. left. exact He'.
Qed.

(** Cutting to [n] pairs before or after an insertion gives the same first
    [n] pairs. *)
Lemma firstn_insert_firstn (r : R) (v : vec3) (l : list (R * vec3)) (n : nat) :
  firstn n (insert_by_rank r v (firstn n l)) = firstn n (insert_by_rank r v l).
Proof.
  revert n. induction l as [|e t IH]; intros n.
  - rewrite firstn_nil. reflexivity.
  - destruct n as [|n]; [reflexivity|].
    rewrite firstn_cons. cbn [insert_by_rank].
    destruct (Rltb r (fst e)).
    + rewrite !firstn_cons. f_equal.
      destruct n as [|n]; [reflexivity|].
      rewrite !firstn_cons. f_equal. rewrite firstn_firstn.
      f_equal. lia.
    + rewrite !firstn_cons. f_equal. apply IH.
Qed.

Lemma insert_removelast (r : R) (v : vec3) (l : list (R * vec3))
  (largest : R * vec3) :
  Rltb r (fst largest) = true ->
  insert_by_rank r v (removelast (l ++ [largest]))
  = removelast (insert_by_rank r v (l ++ [largest])).
Proof.
  intros Hlt. induction l as [|e t IH].
  - simpl. rewrite Hlt. reflexivity.
  - change ((e :: t) ++ [largest]) with (e :: (t ++ [largest])).
    assert (Hne : t ++ [largest] <> []) by (destruct t; discriminate).
    assert (Hrl : removelast (e :: t ++ [largest])
                  = e :: removelast (t ++ [largest])).
    { simpl. destruct (t ++ [largest]); [congruence | reflexivity]. }
    rewrite Hrl. cbn [insert_by_rank].
    destruct (Rltb r (fst e)).
    + rewrite <- Hrl. reflexivity.
    + rewrite IH.
      assert (Hne' : insert_by_rank r v (t ++ [largest]) <> []).
      { intros E. apply (f_equal (@length _)) in E.
        rewrite insert_by_rank_length in E. discriminate. }
      simpl. destruct (insert_by_rank r v (t ++ [largest]));
        [congruence | reflexivity].
Qed.

Lemma insert_after_all (r : R) (v : vec3) (l : list (R * vec3)) :
  Forall (fun e => fst e <= r) l -> insert_by_rank r v l = l ++ [(r, v)].
Proof.
  induction 1 as [|e t He Ht IH]; simpl; [reflexivity|].
  destruct (Rltb_spec' r (fst e)) as [[_ Hlt]|[-> _]]; [lra|].
  rewrite IH. reflexivity.
Qed.

Lemma sorted_below_last (l : list (R * vec3)) (largest : R * vec3) :
  StronglySorted rank_le (l ++ [largest]) ->
  Forall (fun e => fst e <= fst largest) (l ++ [largest]).
Proof.
  induction l as [|e t IH]; simpl; intros H.
  - constructor; [lra | constructor].
  - inversion H as [|e' t' Hs Hall]; subst. constructor.
    + rewrite Forall_forall in Hall. apply (Hall largest).
      apply in_or_app. right. simpl. auto.
    + apply IH. exact Hs.
Qed.

(** One insertion into a pile, on a sorted pile within its capacity. *)
Lemma pile_add_element_held (p : pile) (r : R) (v : vec3) :
  StronglySorted rank_le (held p) -> (length (held p) <= nElements p)%nat ->
  nElements (pile_add_element p r v) = nElements p /\
  held (pile_add_element p r v)
  = firstn (nElements p) (insert_by_rank r v (held p)).
Proof.
  intros Hs Hlen. unfold pile_add_element.
  destruct (Nat.ltb_spec (length (held p)) (nElements p)) as [Hlt|Hge].
  - cbn [nElements held]. split; [reflexivity|].
    rewrite firstn_all2; [reflexivity|].
    rewrite insert_by_rank_length. lia.
  - assert (HK : length (held p) = nElements p) by lia.
    destruct (rev (held p)) as [|largest rest] eqn:Erev.
    + split; [reflexivity|].
      apply (f_equal (@rev _)) in Erev. rewrite rev_involutive in Erev.
      simpl in Erev. rewrite Erev in *. simpl in HK. rewrite <- HK.
      reflexivity.
    + apply (f_equal (@rev _)) in Erev. rewrite rev_involutive in Erev.
      simpl in Erev.
      destruct (Rltb_spec' r (fst largest)) as [[E Hlt]|[E Hle]]; rewrite E.
      * cbn [nElements held]. split; [reflexivity|].
        rewrite Erev, insert_removelast by exact E.
        rewrite removelast_firstn_len, insert_by_rank_length.
        rewrite <- HK, Erev. reflexivity.
      * split; [reflexivity|].
        rewrite insert_after_all.
        -- rewrite <- HK, firstn_app, firstn_all, Nat.sub_diag.
           simpl. rewrite app_nil_r. reflexivity.
        -- rewrite Erev in Hs |- *.
           eapply Forall_impl; [|apply sorted_below_last; exact Hs].
           simpl. intros; lra.
Qed.

(** The pile follows the stable sort of the candidates, cut to capacity. *)
Lemma pile_fold (cands : list (R * vec3)) (p : pile) (L : list (R * vec3)) :
  held p = firstn (nElements p) L -> StronglySorted rank_le L ->
  let p' := fold_left (fun q e => pile_add_element q (fst e) (snd e)) cands p in
  let L' := fold_left (fun l e => insert_by_rank (fst e) (snd e) l) cands L in
  nElements p' = nElements p /\ held p' = firstn (nElements p) L' /\
  StronglySorted rank_le L'.
Proof.
  revert p L. induction cands as [|e cs IH]; intros p L Hh Hs; cbn [fold_left].
  - auto.
  - destruct (pile_add_element_held p (fst e) (snd e)) as [HK Hheld].
    + rewrite Hh. apply firstn_sorted. exact Hs.
    + rewrite Hh, length_firstn. lia.
    + destruct (IH (pile_add_element p (fst e) (snd e))
                   (insert_by_rank (fst e) (snd e) L)) as (H1 & H2 & H3).
      * rewrite Hheld, HK, Hh. apply firstn_insert_firstn.
      * apply insert_by_rank_sorted. exact Hs.
      * rewrite HK in H1, H2. auto.
Qed.

Lemma pile_of_held (K' : nat) (cands : list (R * vec3)) :
  nElements (pile_of K' cands) = K' /\
  held (pile_of K' cands) = firstn K' (sort_by_rank cands) /\
  StronglySorted rank_le (sort_by_rank cands).
Proof.
  unfold pile_of, sort_by_rank.
  apply (pile_fold cands (pile_init K') []).
  - simpl. rewrite firstn_nil. reflexivity.
  - constructor.
Qed.

Lemma insert_fold_perm (cands L : list (R * vec3)) :
  Permutation
    (fold_left (fun l e => insert_by_rank (fst e) (snd e) l) cands L)
    (L ++ cands).
Proof.
  revert L. induction cands as [|e cs IH]; intros L; cbn [fold_left].
  - rewrite app_nil_r. reflexivity.
  - rewrite IH, insert_by_rank_perm. destruct e as [r v]. simpl.
    apply Permutation_middle.
Qed.

Lemma sort_by_rank_perm (cands : list (R * vec3)) :
  Permutation (sort_by_rank cands) cands.
Proof. unfold sort_by_rank. apply (insert_fold_perm cands []). Qed.

Lemma rank_is_true (r : R) (e : R * vec3) : rank_is r e = true -> fst e = r.
Proof. unfold rank_is. destruct (Req_dec_T (fst e) r); congruence. Qed.

Lemma rank_is_above (r : R) (l : list (R * vec3)) :
  Forall (fun e => r < fst e) l -> filter (rank_is r) l = [].
Proof.
  induction 1 as [|e t He Ht IH]; simpl; [reflexivity|].
  destruct (rank_is r e) eqn:E; [|exact IH].
  apply rank_is_true in E. lra.
Qed.

(** An insertion keeps the pairs of equal rank in their order and puts the
    new pair after them. *)
Lemma filter_insert (r rk : R) (v : vec3) (l : list (R * vec3)) :
  StronglySorted rank_le l ->
  filter (rank_is r) (insert_by_rank rk v l)
  = filter (rank_is r) l ++ filter (rank_is r) [(rk, v)].
Proof.
  induction 1 as [|e t Hs IH Hall]; [reflexivity|].
  cbn [insert_by_rank].
  destruct (Rltb_spec' rk (fst e)) as [[-> Hlt]|[-> Hge]].
  - change ((rk, v) :: e :: t) with ([(rk, v)] ++ (e :: t)).
    rewrite filter_app.
    assert (HF : filter (rank_is r) [(rk, v)]
                 = if rank_is r (rk, v) then [(rk, v)] else [])
      by reflexivity.
    rewrite HF. destruct (rank_is r (rk, v)) eqn:E.
    + apply rank_is_true in E. simpl in E. subst r.
      rewrite (rank_is_above rk (e :: t)); [reflexivity|].
      constructor; [exact Hlt|].
      eapply Forall_impl; [|exact Hall]. unfold rank_le. intros; lra.
    + rewrite app_nil_r. reflexivity.
  - cbn [filter]. rewrite IH. destruct (rank_is r e); reflexivity.
Qed.

Lemma filter_insert_fold (r : R) (cands L : list (R * vec3)) :
  StronglySorted rank_le L ->
  filter (rank_is r)
    (fold_left (fun l e => insert_by_rank (fst e) (snd e) l) cands L)
  = filter (rank_is r) L ++ filter (rank_is r) cands.
Proof.
  revert L. induction cands as [|e cs IH]; intros L Hs; cbn [fold_left].
  - simpl. rewrite app_nil_r. reflexivity.
  - rewrite IH by (apply insert_by_rank_sorted; exact Hs).
    rewrite filter_insert by exact Hs. rewrite <- app_assoc.
    rewrite <- filter_app. destruct e as [rk v]. reflexivity.
Qed.

Lemma sort_by_rank_stable (r : R) (cands : list (R * vec3)) :
  filter (rank_is r) (sort_by_rank cands) = filter (rank_is r) cands.
Proof.
  unfold sort_by_rank. rewrite filter_insert_fold by constructor.
  reflexivity.
Qed.

Lemma sorted_ranks (l : list (R * vec3)) :
  StronglySorted rank_le l -> StronglySorted Rle (map fst l).
Proof.
  induction 1 as [|e t Hs IH Hall]; simpl; constructor; auto.
  rewrite Forall_map. exact Hall.
Qed.

(** Two ascending lists with the same elements are the same list. *)
Lemma sorted_perm_unique (l l' : list R) :
  StronglySorted Rle l -> StronglySorted Rle l' -> Permutation l l' ->
  l = l'.
Proof.
  intros Hs. revert l'. induction Hs as [|u t Hs IH Hall]; intros l' Hs' Hp.
  - apply Permutation_nil in Hp. congruence.
  - destruct Hs' as [|u' t' Hs' Hall'].
    + symmetry in Hp. apply Permutation_nil in Hp. discriminate.
    + assert (Hu : u = u').
      { rewrite Forall_forall in Hall, Hall'.
        assert (H1 : In u (u' :: t'))
          by (eapply Permutation_in; [exact Hp | left; reflexivity]).
        assert (H2 : In u' (u :: t))
          by (eapply Permutation_in; [symmetry; exact Hp | left; reflexivity]).
        destruct H1 as [H1|H1]; [congruence|].
        destruct H2 as [H2|H2]; [congruence|].
        apply Rle_antisym; auto. }
      subst u'. f_equal. apply IH; [exact Hs'|].
      eapply Permutation_cons_inv. exact Hp.
Qed.

Lemma sort_by_rank_ranks (cands cands' : list (R * vec3)) :
  Permutation cands cands' ->
  map fst (sort_by_rank cands) = map fst (sort_by_rank cands').
Proof.
  intros Hp. apply sorted_perm_unique.
  - apply sorted_ranks. apply (pile_of_held 0 cands).
  - apply sorted_ranks. apply (pile_of_held 0 cands').
  - apply Permutation_map.
    rewrite (sort_by_rank_perm cands), (sort_by_rank_perm cands'). exact Hp.
Qed.

Lemma sorted_app_le (l1 l2 : list (R * vec3)) :
  StronglySorted rank_le (l1 ++ l2) ->
  forall e d, In e l1 -> In d l2 -> fst e <= fst d.
Proof.
  induction l1 as [|u t IH]; simpl; intros H e d He Hd; [contradiction|].
  inversion H as [|u' t' Hs Hall]; subst.
  destruct He as [<-|He].
  - rewrite Forall_forall in Hall. apply (Hall d).
    apply in_or_app. right. exact Hd.
  - apply IH; assumption.
Qed.

Lemma ranks_length (p : pile) :
  (length (held p) <= nElements p)%nat -> length (ranks p) = nElements p.
Proof.
  intros H. unfold ranks. rewrite length_app, length_map, repeat_length. lia.
Qed.

Lemma ranks_held (p : pile) (i : nat) :
  (i < length (held p))%nat ->
  rd (ranks p) i = fst (nth i (held p) (0, vec3_zero)) /\
  rdv (elements p) i = snd (nth i (held p) (0, vec3_zero)).
Proof.
  intros H. unfold ranks, elements, rd, rdv.
  rewrite !app_nth1 by (rewrite length_map; exact H).
  split.
  - change 0 with (fst (0, vec3_zero)) at 1. apply map_nth.
  - change vec3_zero with (snd (0, vec3_zero)) at 1. apply map_nth.
Qed.

Lemma ranks_absent (p : pile) (i : nat) :
  (length (held p) <= i < nElements p)%nat -> rd (ranks p) i = sentinel.
Proof.
  intros H. unfold ranks, rd.
  rewrite app_nth2 by (rewrite length_map; lia).
  rewrite length_map. apply nth_repeat_lt. lia.
Qed.

(** C4.  After any sequence of insertions into a pile of capacity [cap]:
    the pile holds at most [cap] pairs, exactly [min cap n] of the [n]
    candidates; they are the first [cap] pairs of the stable sort of the
    candidates by rank (a permutation of the candidates in which pairs of
    equal rank keep the order they were seen in), so no retained rank is
    larger than a discarded one; the retained ranks do not depend on the
    order of insertion; the ranks are exposed in ascending order; and every
    position from the number of candidates up to the capacity holds the
    sentinel rank, which is negative. *)
Theorem pile_keeps_smallest (cap : nat) (cands : list (R * vec3)) :
  let p := pile_of cap cands in
  (length (held p) <= cap)%nat /\
  length (held p) = Nat.min cap (length cands) /\
  held p = firstn cap (sort_by_rank cands) /\
  Permutation (sort_by_rank cands) cands /\
  (forall r,
     filter (rank_is r) (sort_by_rank cands) = filter (rank_is r) cands) /\
  (exists rest,
     Permutation cands (held p ++ rest) /\
     forall e d, In e (held p) -> In d rest -> fst e <= fst d) /\
  (forall cands',
     Permutation cands cands' ->
     map fst (held (pile_of cap cands')) = map fst (held p)) /\
  ascending (map fst (held p)) /\
  length (ranks p) = cap /\
  (forall i, (i < Nat.min cap (length cands))%nat ->
     rd (ranks p) i = fst (nth i (held p) (0, vec3_zero)) /\
     rdv (elements p) i = snd (nth i (held p) (0, vec3_zero))) /\
  (forall i, (Nat.min cap (length cands) <= i < cap)%nat ->
     rd (ranks p) i = sentinel /\ sentinel < 0).
Proof.
  intros p. subst p.
  destruct (pile_of_held cap cands) as (HK & Hheld & Hs).
  assert (Hlen : length (held (pile_of cap cands))
                 = Nat.min cap (length cands)).
  { rewrite Hheld, length_firstn.
    rewrite (Permutation_length (sort_by_rank_perm cands)). reflexivity. }
  split; [lia|]. split; [exact Hlen|]. split; [exact Hheld|].
  split; [apply sort_by_rank_perm|].
  split; [intros r; apply sort_by_rank_stable|].
  split.
  { exists (skipn cap (sort_by_rank cands)). rewrite Hheld. split.
    - rewrite firstn_skipn. symmetry. apply sort_by_rank_perm.
    - apply sorted_app_le. rewrite firstn_skipn. exact Hs. }
  split.
  { intros cands' Hp.
    destruct (pile_of_held cap cands') as (_ & Hheld' & _).
    rewrite Hheld, Hheld', <- !firstn_map.
    f_equal. symmetry. apply sort_by_rank_ranks. exact Hp. }
  split.
  { unfold ascending. apply StronglySorted_Sorted, sorted_ranks.
    rewrite Hheld. apply firstn_sorted. exact Hs. }
  split; [rewrite ranks_length; [exact HK | lia]|].
  split.
  - intros i Hi. apply ranks_held. lia.
  - intros i Hi. split; [|unfold sentinel; lra].
    apply ranks_absent. lia.
Qed.

(** ** Further properties of the routine *)

(** What the body of the helix loop prints for atom [a] (lines 266-286). *)
Definition helix_messages (g : args) (a : nat) : list diagnostic :=
  let A := vec3_muls (1 / vec3_norm (fc_re g a)) (fc_re g a) in
  let B := vec3_muls (1 / vec3_norm (fc_im g a)) (fc_im g a) in
  say (Rgtb (Rabs (vec3_norm (fc_re g a) - vec3_norm (fc_im g a))) EPS)
      (StagMomDiffers a)
  ++ say (Rgtb (Rabs (vec3_dot A B)) EPS) (NotOrthogonal a (vec3_dot A B))
  ++ say (Rgtb (Rabs (rd (in_phi g) a)) EPS) PhiNotTested.


(** Two piles of the same capacity that hold the same ranks in the same
    positions. *)
Definition aligned (p q : pile) : Prop :=
  nElements p = nElements q /\ map fst (held p) = map fst (held q).

(** *** The order of the tuples does not matter to the accumulators *)



(** *** The reference position *)

Lemma atmpos_centre (g : args) (a : nat) :
  atmpos g (scx g / 2) (scy g / 2) (scz g / 2) a
  = mat3_vmul (centred g (in_positions g) (3 * a)) (sc_lat g).
Proof.
  unfold atmpos, centred. rewrite Nat.add_0_r. reflexivity.
Qed.

(** X3.  The reference position of atom [a] is the position of its image in the
    replica [(scx/2, scy/2, scz/2)] (integer halves), a replica the loops
    visit as soon as the three counts are positive.  For that tuple the
    vector that enters the phase is the muon position, negated, times the
    inverse lattice matrix. *)
Theorem reference_is_central_image (g : args) (a : nat) :
  (a < in_natoms g)%nat ->
  let h := helix_stage g in
  let i := (scx g / 2)%nat in
  let j := (scy g / 2)%nat in
  let k := (scz g / 2)%nat in
  rdv (refatmpos h) a = atmpos g i j k a /\
  crysvec g h i j k a = mat3_vmul (vec3_muls (-1) (muonpos g)) (inv_sc_lat g)
  /\
  ((0 < scx g)%nat -> (0 < scy g)%nat -> (0 < scz g)%nat ->
   (i < scx g)%nat /\ (j < scy g)%nat /\ (k < scz g)%nat).
Proof.
  intros Ha h i j k. subst h i j k.
  assert (E : rdv (refatmpos (helix_stage g)) a
              = atmpos g (scx g / 2) (scy g / 2) (scz g / 2) a).
  { rewrite helix_refatmpos by exact Ha. symmetry. apply atmpos_centre. }
  split; [exact E|]. split.
  - unfold crysvec. rewrite E. f_equal. vec3_ring.
  - intros Hx Hy Hz. repeat split; apply Nat.div_lt; lia.
Qed.

(** *** Unit vectors of the helix *)

Lemma vec3_norm_muls (s : R) (v : vec3) :
  vec3_norm (vec3_muls s v) = Rabs s * vec3_norm v.
Proof.
  unfold vec3_norm, vec3_dot, vec3_muls. cbn [x y z].
  replace (s * x v * (s * x v) + s * y v * (s * y v) + s * z v * (s * z v))
    with (Rsqr s * (x v * x v + y v * y v + z v * z v))
    by (unfold Rsqr; ring).
  rewrite sqrt_mult; [| apply Rle_0_sqr | nra].
  rewrite sqrt_Rsqr_abs. reflexivity.
Qed.

Lemma vec3_norm_nonneg (v : vec3) : 0 <= vec3_norm v.
Proof. unfold vec3_norm. apply sqrt_pos. Qed.

Lemma normalised_unit (v : vec3) :
  vec3_norm v <> 0 -> vec3_norm (vec3_muls (1 / vec3_norm v) v) = 1.
Proof.
  intros H. pose proof (vec3_norm_nonneg v) as Hp.
  rewrite vec3_norm_muls, Rabs_pos_eq.
  - field. exact H.
  - apply Rlt_le. apply Rdiv_lt_0_compat; lra.
Qed.

(** X4.  For an atom whose real and imaginary parts are both non-zero, the two
    helix vectors have norm 1, the staggered moment is positive, and the
    staggered moment times [Ahelix[a]] gives back the real part. *)
Theorem helix_vectors_unit (g : args) (a : nat) :
  (a < in_natoms g)%nat ->
  vec3_norm (fc_re g a) <> 0 -> vec3_norm (fc_im g a) <> 0 ->
  let h := helix_stage g in
  vec3_norm (rdv (Ahelix h) a) = 1 /\
  vec3_norm (rdv (Bhelix h) a) = 1 /\
  0 < rd (stagmom h) a /\
  vec3_muls (rd (stagmom h) a) (rdv (Ahelix h) a) = fc_re g a.
Proof.
  intros Ha Hre Him h. subst h.
  rewrite helix_Ahelix, helix_Bhelix, helix_stagmom by exact Ha.
  pose proof (vec3_norm_nonneg (fc_re g a)) as Hp.
  split; [apply normalised_unit; exact Hre|].
  split; [apply normalised_unit; exact Him|].
  split; [lra|].
  vec3_field.
Qed.

(** *** What is printed, exactly *)

Lemma say_In (c : bool) (d m : diagnostic) :
  In d (say c m) <-> c = true /\ d = m.
Proof.
  destruct c; simpl; split.
  - intros [H|[]]. auto.
  - intros [_ H]. auto.
  - intros [].
  - intros [H _]. discriminate.
Qed.

Lemma Rgtb_iff (u v : R) : Rgtb u v = true <-> u > v.
Proof.
  unfold Rgtb. destruct (Rgt_dec u v); split; auto; discriminate.
Qed.

Lemma helix_printed_all (g : args) (n : nat) :
  printed (for_loop n (helix_body g) (helix_init g))
  = flat_map (helix_messages g) (seq 0 n).
Proof.
  induction n as [|n IH]; [reflexivity|].
  rewrite for_loop_S, seq_S, flat_map_app. unfold helix_body at 1.
  cbn [printed flat_map]. rewrite IH, app_nil_r. reflexivity.
Qed.

Lemma helix_printed_In (g : args) (d : diagnostic) :
  In d (printed (helix_stage g)) <->
  exists a, (a < in_natoms g)%nat /\ In d (helix_messages g a).
Proof.
  unfold helix_stage. rewrite helix_printed_all, in_flat_map.
  split; intros (a & Ha & Hd); exists a; split; auto;
    apply in_seq in Ha || apply in_seq; lia.
Qed.

Lemma contact_sums_odd_only (nnn : nat) (CC SC : pile) (d : diagnostic) :
  In d (odd (contact_sums nnn CC SC)) ->
  exists i, (i < nnn)%nat /\ eligible CC SC i = false /\
            d = VeryOdd (rd (ranks CC) i) (rd (ranks SC) i).
Proof.
  unfold contact_sums. induction nnn as [|n IH]; [intros []|].
  rewrite for_loop_S.
  destruct (eligible CC SC n) eqn:E.
  - rewrite contact_body_eligible by exact E. cbn [odd]. intros H.
    destruct (IH H) as (i & Hi & R). exists i. split; [lia | exact R].
  - rewrite contact_body_not_eligible by exact E. cbn [odd]. intros H.
    apply in_app_or in H. destruct H as [H|[H|[]]].
    + destruct (IH H) as (i & Hi & R). exists i. split; [lia | exact R].
    + exists n. split; [lia|]. split; [exact E | symmetry; exact H].
Qed.

(** X5.  The messages of the helix decomposition are printed exactly when their
    conditions hold: the staggered-moment message for atom [a] when the two
    norms of atom [a] differ by more than [EPS]; the orthogonality message
    for atom [a] when [|A[a].B[a]|] exceeds [EPS], and then with that scalar
    product; the phase warning when some atom has [|phi[a]|] above [EPS].
    Nothing is printed for an index that is not an atom. *)
Theorem diagnostics_exact (g : args) :
  let h := helix_stage g in
  let out := stdout (FastIncommSum g) in
  (forall a,
     In (StagMomDiffers a) out <->
     (a < in_natoms g)%nat /\
     Rabs (vec3_norm (fc_re g a) - vec3_norm (fc_im g a)) > EPS) /\
  (forall a d,
     In (NotOrthogonal a d) out <->
     (a < in_natoms g)%nat /\
     d = vec3_dot (rdv (Ahelix h) a) (rdv (Bhelix h) a) /\ Rabs d > EPS) /\
  (In PhiNotTested out <->
   exists a, (a < in_natoms g)%nat /\ Rabs (rd (in_phi g) a) > EPS).
Proof.
  intros h out. subst h out. unfold FastIncommSum. cbn [stdout].
  assert (Hodd : forall d,
            In d (odd (contact_sums (nnn_for_cont g)
                         (CCont (lattice_reduction g (helix_stage g)))
                         (SCont (lattice_reduction g (helix_stage g))))) ->
            exists r1 r2, d = VeryOdd r1 r2).
  { intros d H. apply contact_sums_odd_only in H.
    destruct H as (i & _ & _ & ->). eauto. }
  split; [|split].
  - intros a. rewrite in_app_iff, helix_printed_In. split.
    + intros [(a' & Ha' & Hin)|Hin].
      * unfold helix_messages in Hin. rewrite !in_app_iff, !say_In in Hin.
        destruct Hin as [[Hc Hd]|[[_ Hd]|[_ Hd]]]; try discriminate.
        injection Hd as <-. split; [exact Ha'|]. apply Rgtb_iff. exact Hc.
      * destruct (Hodd _ Hin) as (r1 & r2 & Hd). discriminate.
    + intros [Ha Hc]. left. exists a. split; [exact Ha|].
      unfold helix_messages. rewrite !in_app_iff, !say_In. left.
      split; [apply Rgtb_iff; exact Hc | reflexivity].
  - intros a d. rewrite in_app_iff, helix_printed_In. split.
    + intros [(a' & Ha' & Hin)|Hin].
      * unfold helix_messages in Hin. rewrite !in_app_iff, !say_In in Hin.
        destruct Hin as [[_ Hd]|[[Hc Hd]|[_ Hd]]]; try discriminate.
        injection Hd as <- ->. rewrite helix_Ahelix, helix_Bhelix by exact Ha'.
        split; [exact Ha'|]. split; [reflexivity|]. apply Rgtb_iff. exact Hc.
      * destruct (Hodd _ Hin) as (r1 & r2 & Hd). discriminate.
    + intros (Ha & Hd & Hc). left. exists a. split; [exact Ha|].
      rewrite helix_Ahelix, helix_Bhelix in Hd by exact Ha. subst d.
      unfold helix_messages. rewrite !in_app_iff, !say_In. right. left.
      split; [apply Rgtb_iff; exact Hc | reflexivity].
  - rewrite in_app_iff, helix_printed_In. split.
    + intros [(a' & Ha' & Hin)|Hin].
      * unfold helix_messages in Hin. rewrite !in_app_iff, !say_In in Hin.
        destruct Hin as [[_ Hd]|[[_ Hd]|[Hc _]]]; try discriminate.
        exists a'. split; [exact Ha'|]. apply Rgtb_iff. exact Hc.
      * destruct (Hodd _ Hin) as (r1 & r2 & Hd). discriminate.
    + intros (a & Ha & Hc). left. exists a. split; [exact Ha|].
      unfold helix_messages. rewrite !in_app_iff, !say_In. right. right.
      split; [apply Rgtb_iff; exact Hc | reflexivity].
Qed.

(** *** Zero propagation vector and zero phase *)

Lemma theta_zero (g : args) (h : helix) (i j k a : nat) :
  K g = vec3_zero -> rd (in_phi g) a = 0 -> theta g h i j k a = 0.
Proof.
  intros HK Hphi. unfold theta. rewrite HK, Hphi.
  unfold vec3_dot, vec3_zero. cbn [x y z]. ring.
Qed.

Lemma vsum3_ext (f f' : nat -> nat -> nat -> vec3) (nx ny nz : nat) :
  (forall i j k, f i j k = f' i j k) ->
  vsum (fun i => vsum (fun j => vsum (fun k => f i j k) nz) ny) nx
  = vsum (fun i => vsum (fun j => vsum (fun k => f' i j k) nz) ny) nx.
Proof.
  intros H. apply vsum_ext. intros i _. apply vsum_ext. intros j _.
  apply vsum_ext. intros k _. apply H.
Qed.

(** X6.  With a zero propagation vector and a zero phase for atom [a], every
    tuple has cosine 1 and sine 0: the cosine sums of the atom collect
    [D(A[a])] and [A[a]] over the replicas inside the cutoff, the sine sums
    collect [-D(B[a])] and [-B[a]]. *)
Theorem commensurate_sums (g : args) (h : helix) (a : nat) :
  (a < in_natoms g)%nat ->
  K g = vec3_zero -> rd (in_phi g) a = 0 ->
  let s := lattice_reduction g h in
  let A := rdv (Ahelix h) a in
  let B := rdv (Bhelix h) a in
  let total := fun f : nat -> nat -> nat -> vec3 =>
    vsum (fun i => vsum (fun j => vsum (fun k => inside g i j k a (f i j k))
                                       (scz g)) (scy g)) (scx g) in
  rdv (CDip s) a = total (fun i j k => dipolar_tensor A (disp g i j k a)) /\
  rdv (SDip s) a
    = total (fun i j k =>
               vec3_muls (-1) (dipolar_tensor B (disp g i j k a))) /\
  rdv (CLor s) a = total (fun _ _ _ => A) /\
  rdv (SLor s) a = total (fun _ _ _ => vec3_muls (-1) B).
Proof.
  intros Ha HK Hphi s A B total. subst s A B total.
  destruct (lattice_reduction_totals g h a Ha) as (H1 & H2 & H3 & H4).
  cbv zeta in H1, H2, H3, H4. rewrite H1, H2, H3, H4.
  repeat split; apply vsum3_ext; intros i j k;
    rewrite (theta_zero g h i j k a HK Hphi), cos_0, sin_0;
    f_equal; unfold cos_part, sin_part; vec3_ring.
Qed.

(** *** Every curve is a sinusoid in the angle *)

Lemma vsum_sinusoid (m : nat -> R) (C S : nat -> vec3) (c s : R) (n : nat) :
  vsum (fun a =>
          vec3_muls (m a)
            (vec3_sub (vec3_muls c (C a)) (vec3_muls s (S a)))) n
  = vec3_sub (vec3_muls c (vsum (fun a => vec3_muls (m a) (C a)) n))
             (vec3_muls s (vsum (fun a => vec3_muls (m a) (S a)) n)).
Proof.
  induction n as [|n IH]; cbn [vsum].
  - vec3_ring.
  - rewrite IH. vec3_ring.
Qed.

(** X7.  For each of the three outputs there are two vectors [C] and [S], the
    same for every angle, such that the vector stored at index [n] is
    [cos(angle_n) C - sin(angle_n) S] with [angle_n = 2 pi n / in_nangles]. *)
Theorem curves_are_sinusoids (g : args) :
  let h := helix_stage g in
  let s := lattice_reduction g h in
  let t := contact_sums (nnn_for_cont g) (CCont s) (SCont s) in
  let run := FastIncommSum g in
  let wave := fun (C S : vec3) (n : nat) =>
    vec3_sub (vec3_muls (cos (angle_of g n)) C)
             (vec3_muls (sin (angle_of g n)) S) in
  let weighted := fun (k : R) (V : list vec3) =>
    vec3_muls k
      (vsum (fun a => vec3_muls (rd (stagmom h) a) (rdv V a))
            (in_natoms g)) in
  let kl := 0.33333333333 * 11.654064 * (3 / (4 * PI * radius g ^ 3)) in
  let kc := if (0 <? NofM t)%Z then 1 / SumOfWeights t * 7.769376 else 0 in
  forall n, (n < in_nangles g)%nat ->
    out_at (out_field_dip run) n
      = wave (weighted 0.9274009 (CDip s)) (weighted 0.9274009 (SDip s)) n /\
    out_at (out_field_lor run) n
      = wave (weighted kl (CLor s)) (weighted kl (SLor s)) n /\
    out_at (out_field_cont run) n
      = wave (vec3_muls kc (CBCont t)) (vec3_muls kc (SBCont t)) n.
Proof.
  intros h s t run wave weighted kl kc n Hn.
  subst run wave weighted kl kc. unfold FastIncommSum.
  cbn [out_field_dip out_field_lor out_field_cont].
  fold h. fold s. fold t.
  rewrite out_field_dip_at, out_field_lor_at, contact_pass_at by exact Hn.
  unfold BDip_at, BLor_at. rewrite !field_sum_vsum, !vsum_sinusoid.
  split; [vec3_ring|]. split; [vec3_ring|].
  destruct (0 <? NofM t)%Z; unfold BCont_of; vec3_ring.
Qed.

(** *** The contact pass *)

Lemma filter_length_le {A : Type} (f : A -> bool) (l : list A) :
  (length (filter f l) <= length l)%nat.
Proof.
  induction l as [|h t IH]; simpl; [lia|]. destruct (f h); simpl; lia.
Qed.

Lemma contact_sums_odd_length (nnn : nat) (CC SC : pile) :
  (Z.of_nat (length (odd (contact_sums nnn CC SC)))
   + NofM (contact_sums nnn CC SC))%Z = Z.of_nat nnn.
Proof.
  unfold contact_sums. induction nnn as [|n IH]; [reflexivity|].
  rewrite for_loop_S. destruct (eligible CC SC n) eqn:E.
  - rewrite contact_body_eligible by exact E. cbn [odd NofM]. lia.
  - rewrite contact_body_not_eligible by exact E. cbn [odd NofM].
    rewrite length_app. cbn [length]. lia.
Qed.

(** X8.  Every pile position below [nnn_for_cont] is either counted or printed:
    the count of moments and the number of messages add up to
    [nnn_for_cont], the count lies between 0 and [nnn_for_cont], and each
    message carries the two ranks of a position that failed the test. *)
Theorem contact_positions_accounted (nnn : nat) (CC SC : pile) :
  let t := contact_sums nnn CC SC in
  (Z.of_nat (length (odd t)) + NofM t)%Z = Z.of_nat nnn /\
  (0 <= NofM t <= Z.of_nat nnn)%Z /\
  (forall d, In d (odd t) ->
     exists i, (i < nnn)%nat /\
       ~ (rd (ranks CC) i >= 0 /\
          Rabs (rd (ranks CC) i - rd (ranks SC) i) < EPS) /\
       d = VeryOdd (rd (ranks CC) i) (rd (ranks SC) i)).
Proof.
  intros t. subst t.
  pose proof (contact_sums_odd_length nnn CC SC) as HL.
  destruct (contact_sums_spec nnn CC SC) as (_ & _ & _ & HN).
  cbv zeta in HN.
  split; [exact HL|]. split; [lia|].
  intros d Hd. destruct (contact_sums_odd_only nnn CC SC d Hd)
    as (i & Hi & E & ->).
  exists i. split; [exact Hi|]. split; [|reflexivity].
  intros [H1 H2]. unfold eligible in E.
  rewrite (Rgeb_true _ _ H1), (Rltb_true _ _ H2) in E. discriminate.
Qed.

Lemma vsum_scale (f : nat -> vec3) (r : R) (n : nat) :
  vsum (fun i => vec3_divs (f i) r) n = vec3_muls (1 / r) (vsum f n).
Proof.
  induction n as [|n IH]; cbn [vsum].
  - vec3_ring.
  - rewrite IH. vec3_ring.
Qed.

Lemma rsum_const (c : R) (n : nat) : rsum (fun _ => c) n = INR n * c.
Proof.
  induction n as [|n IH]; [simpl; ring|].
  cbn [rsum]. rewrite IH, S_INR. ring.
Qed.

Lemma vsum_wave (C S : nat -> vec3) (c s : R) (n : nat) :
  vec3_sub (vec3_muls c (vsum C n)) (vec3_muls s (vsum S n))
  = vsum (fun i => vec3_sub (vec3_muls c (C i)) (vec3_muls s (S i))) n.
Proof.
  induction n as [|n IH]; cbn [vsum].
  - vec3_ring.
  - rewrite <- IH. vec3_ring.
Qed.

Lemma rsum_ext (f f' : nat -> R) (n : nat) :
  (forall i, (i < n)%nat -> f i = f' i) -> rsum f n = rsum f' n.
Proof.
  induction n as [|n IH]; intros H; simpl; [reflexivity|].
  rewrite IH, H by (auto; intros; apply H; lia). reflexivity.
Qed.

Lemma filter_all {A : Type} (f : A -> bool) (l : list A) :
  (forall u, In u l -> f u = true) -> filter f l = l.
Proof.
  induction l as [|h t IH]; intros H; simpl; [reflexivity|].
  rewrite (H h) by (left; reflexivity). f_equal. apply IH.
  intros u Hu. apply H. right. exact Hu.
Qed.

(** X9.  When the two piles hold the same positive rank at every position, the
    weights cancel: the contact vector at each angle is [7.769376] times
    the plain average, over the positions, of
    [cos(angle) value_cos[i] - sin(angle) value_sin[i]]. *)
Theorem contact_equal_ranks_average (g : args) (CC SC : pile) (r : R) :
  0 < EPS -> 0 < r -> (0 < nnn_for_cont g)%nat ->
  (forall i, (i < nnn_for_cont g)%nat ->
     rd (ranks CC) i = r /\ rd (ranks SC) i = r) ->
  forall n, (n < in_nangles g)%nat ->
    out_at (contact_pass g (contact_sums (nnn_for_cont g) CC SC)) n
    = vec3_muls (7.769376 / INR (nnn_for_cont g))
        (vsum (fun i =>
                 vec3_sub
                   (vec3_muls (cos (angle_of g n)) (rdv (elements CC) i))
                   (vec3_muls (sin (angle_of g n)) (rdv (elements SC) i)))
              (nnn_for_cont g)).
Proof.
  intros HE Hr Hnnn Hranks n Hn.
  assert (Hel : forall i, (i < nnn_for_cont g)%nat ->
                  eligible CC SC i = true).
  { intros i Hi. destruct (Hranks i Hi) as [E1 E2]. unfold eligible.
    rewrite E1, E2, Rgeb_true by lra.
    replace (r - r) with 0 by ring. rewrite Rabs_R0.
    rewrite Rltb_true by exact HE. reflexivity. }
  rewrite contact_pass_at by exact Hn.
  destruct (contact_sums_spec (nnn_for_cont g) CC SC)
    as (H1 & H2 & H3 & H4).
  cbv zeta in H1, H2, H3, H4.
  rewrite filter_all, length_seq in H4
    by (intros u Hu; apply in_seq in Hu; apply Hel; lia).
  rewrite H4.
  destruct (Z.ltb_spec 0 (Z.of_nat (nnn_for_cont g))) as [_|Hz]; [|lia].
  unfold BCont_of. rewrite H1, H2, H3.
  rewrite (vsum_ext _ (fun i => vec3_divs (rdv (elements CC) i) r))
    by (intros i Hi; rewrite (Hel i Hi), (proj1 (Hranks i Hi));
        reflexivity).
  rewrite (vsum_ext (fun i => if eligible CC SC i then _ else _)
                    (fun i => vec3_divs (rdv (elements SC) i) r))
    by (intros i Hi; rewrite (Hel i Hi), (proj2 (Hranks i Hi));
        reflexivity).
  rewrite (rsum_ext _ (fun _ => 1 / r))
    by (intros i Hi; rewrite (Hel i Hi), (proj1 (Hranks i Hi));
        reflexivity).
  rewrite !vsum_scale, rsum_const, <- vsum_wave.
  assert (HN : INR (nnn_for_cont g) <> 0)
    by (apply not_0_INR; lia).
  vec3_field; lra.
Qed.

(** *** The two piles of a run *)

Lemma insert_by_rank_ranks (r : R) (v w : vec3) (l l' : list (R * vec3)) :
  map fst l = map fst l' ->
  map fst (insert_by_rank r v l) = map fst (insert_by_rank r w l').
Proof.
  revert l'. induction l as [|e t IH]; intros [|e' t'] H;
    try discriminate; [reflexivity|].
  cbn [map] in H. injection H as He Ht. cbn [insert_by_rank].
  rewrite He. destruct (Rltb r (fst e')); cbn [map fst].
  - rewrite He, Ht. reflexivity.
  - rewrite He, (IH t' Ht). reflexivity.
Qed.

Lemma removelast_map {A B : Type} (f : A -> B) (l : list A) :
  map f (removelast l) = removelast (map f l).
Proof.
  induction l as [|h t IH]; [reflexivity|].
  destruct t as [|h' t']; [reflexivity|].
  change (map f (h :: removelast (h' :: t'))
          = f h :: removelast (map f (h' :: t'))).
  cbn [map]. f_equal. exact IH.
Qed.

Lemma pile_add_element_aligned (p q : pile) (r : R) (v w : vec3) :
  aligned p q -> aligned (pile_add_element p r v) (pile_add_element q r w).
Proof.
  intros [HK HR]. unfold pile_add_element.
  assert (HL : length (held p) = length (held q)).
  { rewrite <- (length_map fst (held p)), HR. apply length_map. }
  rewrite HL, HK.
  destruct (length (held q) <? nElements q)%nat.
  - split; [reflexivity|]. cbn [held]. apply insert_by_rank_ranks. exact HR.
  - assert (Hrev : map fst (rev (held p)) = map fst (rev (held q)))
      by (rewrite !map_rev, HR; reflexivity).
    destruct (rev (held p)) as [|lp tp], (rev (held q)) as [|lq tq];
      try discriminate.
    + split; assumption.
    + cbn [map] in Hrev. injection Hrev as Hl _. rewrite Hl.
      destruct (Rltb r (fst lq)).
      * split; [reflexivity|]. cbn [held]. apply insert_by_rank_ranks.
        rewrite !removelast_map, HR. reflexivity.
      * split; assumption.
Qed.

Lemma tuple_step_aligned (g : args) (h : helix) (i j k a : nat) (s : sums) :
  aligned (CCont s) (SCont s) ->
  aligned (CCont (tuple_step g h i j k a s))
          (SCont (tuple_step g h i j k a s)).
Proof.
  intros H. unfold tuple_step.
  destruct (Rltb (vec3_norm (disp g i j k a)) (radius g)); [|exact H].
  cbn [CCont SCont].
  destruct (Rltb (vec3_norm (disp g i j k a)) (cont_radius g));
    cbn [fst snd]; [|exact H].
  apply pile_add_element_aligned. exact H.
Qed.

Lemma lattice_reduction_aligned (g : args) (h : helix) :
  aligned (CCont (lattice_reduction g h)) (SCont (lattice_reduction g h)).
Proof.
  unfold lattice_reduction.
  apply for_loop_inv with (I := fun s => aligned (CCont s) (SCont s));
    [split; reflexivity|].
  intros i s _ Hs.
  apply for_loop_inv with (I := fun s => aligned (CCont s) (SCont s));
    [exact Hs|].
  intros j s' _ Hs'.
  apply for_loop_inv with (I := fun s => aligned (CCont s) (SCont s));
    [exact Hs'|].
  intros k s'' _ Hs''.
  apply for_loop_inv with (I := fun s => aligned (CCont s) (SCont s));
    [exact Hs''|].
  intros a s3 _ Hs3. apply tuple_step_aligned. exact Hs3.
Qed.

Lemma aligned_ranks (p q : pile) : aligned p q -> ranks p = ranks q.
Proof.
  intros [HK HR]. unfold ranks.
  rewrite <- (length_map fst (held p)), <- (length_map fst (held q)).
  rewrite HR, HK. reflexivity.
Qed.

(** X10.  Both piles receive the same rank at each insertion (lines 411 and 417),
    so after the reduction they hold the same ranks at the same positions.
    With a positive [EPS] the rank comparison of the contact pass then
    always succeeds: a message of the contact pass is printed only for a
    position whose rank is negative, and carries that rank twice. *)
Theorem piles_stay_aligned (g : args) :
  let s := lattice_reduction g (helix_stage g) in
  ranks (CCont s) = ranks (SCont s) /\
  (0 < EPS ->
   forall r1 r2, In (VeryOdd r1 r2) (stdout (FastIncommSum g)) ->
     r1 = r2 /\ r1 < 0).
Proof.
  intros s.
  assert (HR : ranks (CCont s) = ranks (SCont s))
    by (apply aligned_ranks, lattice_reduction_aligned).
  split; [exact HR|].
  intros HE r1 r2 Hin. unfold FastIncommSum in Hin. cbn [stdout] in Hin.
  fold s in Hin. apply in_app_or in Hin. destruct Hin as [Hin|Hin].
  - apply helix_printed_In in Hin. destruct Hin as (a & _ & Hin).
    unfold helix_messages in Hin. rewrite !in_app_iff, !say_In in Hin.
    destruct Hin as [[_ Hd]|[[_ Hd]|[_ Hd]]]; discriminate.
  - apply contact_sums_odd_only in Hin.
    destruct Hin as (i & _ & E & Hd). injection Hd as -> ->.
    rewrite HR. split; [reflexivity|].
    unfold eligible in E. rewrite HR in E.
    replace (rd (ranks (SCont s)) i - rd (ranks (SCont s)) i) with 0 in E
      by ring.
    rewrite Rabs_R0, (Rltb_true 0 EPS HE), andb_true_r in E.
    unfold Rgeb in E. destruct (Rge_dec (rd (ranks (SCont s)) i) 0);
      [discriminate | lra].
Qed.

(** *** Contact needs both cutoffs *)

Lemma tuple_step_no_contact (g : args) (h : helix) (i j k a : nat)
  (s : sums) :
  ~ (dist g i j k a < radius g /\ dist g i j k a < cont_radius g) ->
  CCont (tuple_step g h i j k a s) = CCont s /\
  SCont (tuple_step g h i j k a s) = SCont s.
Proof.
  intros H. unfold tuple_step. fold (dist g i j k a).
  destruct (Rltb_spec' (dist g i j k a) (radius g)) as [[-> H1]|[-> _]];
    [|auto].
  cbn [CCont SCont].
  destruct (Rltb_spec' (dist g i j k a) (cont_radius g))
    as [[-> H2]|[-> _]]; [exfalso; apply H; split; assumption | auto].
Qed.

(** X11.  The insertion into the piles sits inside the test [n < radius]: a tuple
    is a contact candidate only if it passes both [n < radius] and
    [n < cont_radius].  When no tuple passes both, the piles stay as
    initialised and the contact vector is zero at every angle, whatever the
    dipolar and Lorentz sums are. *)
Theorem contact_needs_both_cutoffs (g : args) :
  (forall i j k a, (i < scx g)%nat -> (j < scy g)%nat -> (k < scz g)%nat ->
     (a < in_natoms g)%nat ->
     ~ (dist g i j k a < radius g /\ dist g i j k a < cont_radius g)) ->
  let s := lattice_reduction g (helix_stage g) in
  CCont s = pile_init (nnn_for_cont g) /\
  SCont s = pile_init (nnn_for_cont g) /\
  forall n, (n < in_nangles g)%nat ->
    out_at (out_field_cont (FastIncommSum g)) n = vec3_zero.
Proof.
  intros H s.
  assert (HP : CCont s = pile_init (nnn_for_cont g) /\
               SCont s = pile_init (nnn_for_cont g)).
  { subst s. unfold lattice_reduction.
    set (I := fun s : sums => CCont s = pile_init (nnn_for_cont g) /\
                              SCont s = pile_init (nnn_for_cont g)).
    apply for_loop_inv with (I := I); [split; reflexivity|].
    intros i s Hi Hs. apply for_loop_inv with (I := I); [exact Hs|].
    intros j s' Hj Hs'. apply for_loop_inv with (I := I); [exact Hs'|].
    intros k s'' Hk Hs''. apply for_loop_inv with (I := I); [exact Hs''|].
    intros a s3 Ha [H1 H2].
    destruct (tuple_step_no_contact g (helix_stage g) i j k a s3
                (H i j k a Hi Hj Hk Ha)) as [E1 E2].
    unfold I. rewrite E1, E2. auto. }
  destruct HP as [H1 H2]. split; [exact H1|]. split; [exact H2|].
  intros n Hn. unfold FastIncommSum. cbn [out_field_cont]. fold s.
  rewrite contact_pass_at by exact Hn.
  rewrite H1, H2, contact_sums_empty. reflexivity.
Qed.

(** *** Nothing to sum *)



(** *** The contact parameters do not reach the other two fields *)

(** The arguments [g] with another neighbour count and contact radius. *)
Definition with_contact (g : args) (nnn : nat) (cr : R) : args :=
  mkargs (in_positions g) (in_fc g) (in_K g) (in_phi g) (in_muonpos g)
         (in_supercell g) (in_cell g) (radius g) nnn cr
         (in_natoms g) (in_nangles g).

Lemma lattice_reduction_CDip (g : args) (h : helix) :
  CDip (lattice_reduction g h)
  = for_loop (scx g) (fun i => for_loop (scy g) (fun j =>
      for_loop (scz g) (fun k => for_loop (in_natoms g) (fun a =>
        bump a (inside g i j k a
          (cos_part (cos (theta g h i j k a)) (sin (theta g h i j k a))
             (dipolar_tensor (rdv (Ahelix h) a) (disp g i j k a))
             (dipolar_tensor (rdv (Bhelix h) a) (disp g i j k a))))))))
      (repeat vec3_zero (in_natoms g)).
Proof.
  unfold lattice_reduction.
  rewrite (for_loop_proj CDip _
    (fun i => for_loop (scy g) (fun j => for_loop (scz g) (fun k =>
       for_loop (in_natoms g) (fun a =>
         bump a (inside g i j k a
           (cos_part (cos (theta g h i j k a)) (sin (theta g h i j k a))
              (dipolar_tensor (rdv (Ahelix h) a) (disp g i j k a))
              (dipolar_tensor (rdv (Bhelix h) a) (disp g i j k a))))))))).
  - reflexivity.
  - intros i st. apply for_loop_proj. intros j st'.
    apply for_loop_proj. intros k st''. apply for_loop_proj.
    intros a st3. apply tuple_step_CDip.
Qed.

Lemma lattice_reduction_SDip (g : args) (h : helix) :
  SDip (lattice_reduction g h)
  = for_loop (scx g) (fun i => for_loop (scy g) (fun j =>
      for_loop (scz g) (fun k => for_loop (in_natoms g) (fun a =>
        bump a (inside g i j k a
          (sin_part (cos (theta g h i j k a)) (sin (theta g h i j k a))
             (dipolar_tensor (rdv (Ahelix h) a) (disp g i j k a))
             (dipolar_tensor (rdv (Bhelix h) a) (disp g i j k a))))))))
      (repeat vec3_zero (in_natoms g)).
Proof.
  unfold lattice_reduction.
  rewrite (for_loop_proj SDip _
    (fun i => for_loop (scy g) (fun j => for_loop (scz g) (fun k =>
       for_loop (in_natoms g) (fun a =>
         bump a (inside g i j k a
           (sin_part (cos (theta g h i j k a)) (sin (theta g h i j k a))
              (dipolar_tensor (rdv (Ahelix h) a) (disp g i j k a))
              (dipolar_tensor (rdv (Bhelix h) a) (disp g i j k a))))))))).
  - reflexivity.
  - intros i st. apply for_loop_proj. intros j st'.
    apply for_loop_proj. intros k st''. apply for_loop_proj.
    intros a st3. apply tuple_step_SDip.
Qed.

Lemma lattice_reduction_CLor (g : args) (h : helix) :
  CLor (lattice_reduction g h)
  = for_loop (scx g) (fun i => for_loop (scy g) (fun j =>
      for_loop (scz g) (fun k => for_loop (in_natoms g) (fun a =>
        bump a (inside g i j k a
          (cos_part (cos (theta g h i j k a)) (sin (theta g h i j k a))
             (rdv (Ahelix h) a) (rdv (Bhelix h) a)))))))
      (repeat vec3_zero (in_natoms g)).
Proof.
  unfold lattice_reduction.
  rewrite (for_loop_proj CLor _
    (fun i => for_loop (scy g) (fun j => for_loop (scz g) (fun k =>
       for_loop (in_natoms g) (fun a =>
         bump a (inside g i j k a
           (cos_part (cos (theta g h i j k a)) (sin (theta g h i j k a))
              (rdv (Ahelix h) a) (rdv (Bhelix h) a)))))))).
  - reflexivity.
  - intros i st. apply for_loop_proj. intros j st'.
    apply for_loop_proj. intros k st''. apply for_loop_proj.
    intros a st3. apply tuple_step_CLor.
Qed.

Lemma lattice_reduction_SLor (g : args) (h : helix) :
  SLor (lattice_reduction g h)
  = for_loop (scx g) (fun i => for_loop (scy g) (fun j =>
      for_loop (scz g) (fun k => for_loop (in_natoms g) (fun a =>
        bump a (inside g i j k a
          (sin_part (cos (theta g h i j k a)) (sin (theta g h i j k a))
             (rdv (Ahelix h) a) (rdv (Bhelix h) a)))))))
      (repeat vec3_zero (in_natoms g)).
Proof.
  unfold lattice_reduction.
  rewrite (for_loop_proj SLor _
    (fun i => for_loop (scy g) (fun j => for_loop (scz g) (fun k =>
       for_loop (in_natoms g) (fun a =>
         bump a (inside g i j k a
           (sin_part (cos (theta g h i j k a)) (sin (theta g h i j k a))
              (rdv (Ahelix h) a) (rdv (Bhelix h) a)))))))).
  - reflexivity.
  - intros i st. apply for_loop_proj. intros j st'.
    apply for_loop_proj. intros k st''. apply for_loop_proj.
    intros a st3. apply tuple_step_SLor.
Qed.

(** X13.  The neighbour count [nnn_for_cont] and the contact radius play no part
    in the dipolar and Lorentz fields, nor in what the helix decomposition
    prints: a run with other values of the two stores the same dipolar and
    Lorentz arrays. *)
Theorem contact_parameters_are_local (g : args) (nnn : nat) (cr : R) :
  let g' := with_contact g nnn cr in
  out_field_dip (FastIncommSum g') = out_field_dip (FastIncommSum g) /\
  out_field_lor (FastIncommSum g') = out_field_lor (FastIncommSum g) /\
  printed (helix_stage g') = printed (helix_stage g).
Proof.
  intros g'.
  assert (Hh : helix_stage g' = helix_stage g) by reflexivity.
  assert (H1 : CDip (lattice_reduction g' (helix_stage g'))
               = CDip (lattice_reduction g (helix_stage g)))
    by (rewrite Hh, !lattice_reduction_CDip; reflexivity).
  assert (H2 : SDip (lattice_reduction g' (helix_stage g'))
               = SDip (lattice_reduction g (helix_stage g)))
    by (rewrite Hh, !lattice_reduction_SDip; reflexivity).
  assert (H3 : CLor (lattice_reduction g' (helix_stage g'))
               = CLor (lattice_reduction g (helix_stage g)))
    by (rewrite Hh, !lattice_reduction_CLor; reflexivity).
  assert (H4 : SLor (lattice_reduction g' (helix_stage g'))
               = SLor (lattice_reduction g (helix_stage g)))
    by (rewrite Hh, !lattice_reduction_SLor; reflexivity).
  unfold FastIncommSum. cbn [out_field_dip out_field_lor].
  split; [|split; [|rewrite Hh; reflexivity]].
  - unfold dip_lor_pass.
    rewrite !(for_loop_proj fst _
      (fun b o => store3 b (BDip_at _ _ _ b) o)) by reflexivity.
    cbn [fst]. unfold BDip_at. rewrite H1, H2, Hh. reflexivity.
  - unfold dip_lor_pass.
    rewrite !(for_loop_proj snd _
      (fun b o => store3 b (BLor_at _ _ _ b) o)) by reflexivity.
    cbn [snd]. unfold BLor_at. rewrite H3, H4, Hh. reflexivity.
Qed.

(** *** The sums after the whole reduction *)

Lemma tuple_step_sized (g : args) (h : helix) (i j k a n : nat) (s : sums) :
  sized n s -> sized n (tuple_step g h i j k a s).
Proof.
  intros (H1 & H2 & H3 & H4). unfold sized.
  rewrite tuple_step_CDip, tuple_step_SDip, tuple_step_CLor,
    tuple_step_SLor, !bump_length.
  auto.
Qed.

Lemma lattice_reduction_sized (g : args) (h : helix) :
  sized (in_natoms g) (lattice_reduction g h).
Proof.
  unfold lattice_reduction.
  apply for_loop_inv with (I := sized (in_natoms g)).
  { unfold sized. cbn [sums_init CDip SDip CLor SLor].
    rewrite repeat_length. auto. }
  intros i s _ Hs. apply for_loop_inv with (I := sized (in_natoms g));
    [exact Hs|].
  intros j s' _ Hs'. apply for_loop_inv with (I := sized (in_natoms g));
    [exact Hs'|].
  intros k s'' _ Hs''. apply for_loop_inv with (I := sized (in_natoms g));
    [exact Hs''|].
  intros a s3 _ Hs3. apply tuple_step_sized. exact Hs3.
Qed.

(** X1.  After the four nested loops each accumulator still has [in_natoms]
    cells, and the cell of atom [a] holds the sum, over all replicas
    [(i,j,k)] of the supercell whose image of [a] is inside the cutoff, of
    the term of that tuple: [c.D(A) + s.D(B)] in [CDip], [s.D(A) - c.D(B)]
    in [SDip], [c.A + s.B] in [CLor] and [s.A - c.B] in [SLor]. *)
Theorem reduction_sums (g : args) (h : helix) :
  let s := lattice_reduction g h in
  let c := fun i j k a => cos (theta g h i j k a) in
  let sn := fun i j k a => sin (theta g h i j k a) in
  let A := fun a => rdv (Ahelix h) a in
  let B := fun a => rdv (Bhelix h) a in
  let D := fun X i j k a => dipolar_tensor X (disp g i j k a) in
  let total := fun (a : nat) (f : nat -> nat -> nat -> vec3) =>
    vsum (fun i => vsum (fun j => vsum (fun k =>
            if Rltb (dist g i j k a) (radius g) then f i j k else vec3_zero)
          (scz g)) (scy g)) (scx g) in
  sized (in_natoms g) s /\
  forall a, (a < in_natoms g)%nat ->
    rdv (CDip s) a
      = total a (fun i j k =>
          vec3_add (vec3_muls (c i j k a) (D (A a) i j k a))
                   (vec3_muls (sn i j k a) (D (B a) i j k a))) /\
    rdv (SDip s) a
      = total a (fun i j k =>
          vec3_sub (vec3_muls (sn i j k a) (D (A a) i j k a))
                   (vec3_muls (c i j k a) (D (B a) i j k a))) /\
    rdv (CLor s) a
      = total a (fun i j k =>
          vec3_add (vec3_muls (c i j k a) (A a))
                   (vec3_muls (sn i j k a) (B a))) /\
    rdv (SLor s) a
      = total a (fun i j k =>
          vec3_sub (vec3_muls (sn i j k a) (A a))
                   (vec3_muls (c i j k a) (B a))).
Proof.
  intros s c sn A B D total. subst s c sn A B D total.
  split; [apply lattice_reduction_sized|].
  intros a Ha.
  destruct (lattice_reduction_totals g h a Ha) as (H1 & H2 & H3 & H4).
  cbv zeta in H1, H2, H3, H4. rewrite H1, H2, H3, H4.
  repeat split; reflexivity.
Qed.
End FastIncommSum.

(** ** A concrete run

    One atom at the origin of a cubic unit cell, a 1x1x1 supercell, the
    Fourier coefficient [(1, i, 0)], zero propagation vector and phase, the
    muon at [(mx, 0, 0)], and the matrix operations of [std_mat3_*]. *)

Definition example_EPS : R := 1 / 1000000.

Definition example_input (mx rad : R) : args :=
  mkargs [0; 0; 0] [1; 0; 0; 1; 0; 0] [0; 0; 0] [0] [mx; 0; 0]
         [1%Z; 1%Z; 1%Z] [1; 0; 0; 0; 1; 0; 0; 0; 1]
         rad 0 0 1 1.

Definition identity3 : mat3 :=
  mkmat3 (mkvec3 1 0 0) (mkvec3 0 1 0) (mkvec3 0 0 1).

Lemma example_sc (mx rad : R) :
  scx (example_input mx rad) = 1%nat /\ scy (example_input mx rad) = 1%nat /\
  scz (example_input mx rad) = 1%nat.
Proof. repeat split. Qed.

Lemma mat3_eq (m m' : mat3) :
  row_a m = row_a m' -> row_b m = row_b m' -> row_c m = row_c m' -> m = m'.
Proof. destruct m, m'; simpl; intros; subst; reflexivity. Qed.

Lemma example_sc_lat (mx rad : R) :
  sc_lat std_mat3_mul std_mat3_diag (example_input mx rad) = identity3.
Proof.
  unfold sc_lat. destruct (example_sc mx rad) as (-> & -> & ->).
  unfold cell, rd, std_mat3_mul, std_mat3_diag, std_mat3_vmul, identity3.
  cbn [in_cell example_input nth row_a row_b row_c INR].
  apply mat3_eq; cbn [row_a row_b row_c]; vec3_ring.
Qed.

Lemma std_vmul_identity (v : vec3) : std_mat3_vmul v identity3 = v.
Proof.
  unfold std_mat3_vmul, identity3. cbn [row_a row_b row_c]. vec3_ring.
Qed.

Lemma example_muonpos (mx rad : R) :
  muonpos std_mat3_mul std_mat3_diag std_mat3_vmul (example_input mx rad)
  = mkvec3 mx 0 0.
Proof.
  unfold muonpos. rewrite example_sc_lat, std_vmul_identity.
  unfold centred. destruct (example_sc mx rad) as (-> & -> & ->).
  unfold rd. cbn [in_muonpos example_input nth Nat.add Nat.div Nat.divmod
                  fst INR].
  vec3_field; lra.
Qed.

Lemma example_atmpos (mx rad : R) :
  atmpos std_mat3_mul std_mat3_diag std_mat3_vmul (example_input mx rad)
         0 0 0 0
  = vec3_zero.
Proof.
  unfold atmpos. rewrite example_sc_lat, std_vmul_identity.
  destruct (example_sc mx rad) as (-> & -> & ->).
  unfold rd. cbn [in_positions example_input nth Nat.add Nat.mul INR].
  vec3_field; lra.
Qed.

Lemma example_disp (mx rad : R) :
  disp std_mat3_mul std_mat3_diag std_mat3_vmul (example_input mx rad)
       0 0 0 0
  = mkvec3 (- mx) 0 0.
Proof.
  unfold disp. rewrite example_atmpos, example_muonpos. vec3_ring.
Qed.

Lemma example_dist (mx rad : R) :
  0 <= mx ->
  dist std_mat3_mul std_mat3_diag std_mat3_vmul (example_input mx rad)
       0 0 0 0
  = mx.
Proof.
  intros H. unfold dist. rewrite example_disp.
  unfold vec3_norm, vec3_dot. cbn [x y z].
  replace (- mx * - mx + 0 * 0 + 0 * 0) with (mx * mx) by ring.
  apply sqrt_square. exact H.
Qed.

Lemma sqrt_100 : sqrt (1 * 1 + 0 * 0 + 0 * 0) = 1.
Proof.
  replace (1 * 1 + 0 * 0 + 0 * 0) with 1 by ring. apply sqrt_1.
Qed.

Lemma example_fc_norms (mx rad : R) :
  vec3_norm (fc_re (example_input mx rad) 0) = 1 /\
  vec3_norm (fc_im (example_input mx rad) 0) = 1.
Proof.
  unfold vec3_norm, vec3_dot, fc_re, fc_im, rd.
  cbn [in_fc example_input nth Nat.mul Nat.add x y z].
  split; [apply sqrt_100|].
  replace (0 * 0 + 1 * 1 + 0 * 0) with 1 by ring. apply sqrt_1.
Qed.

Lemma Rgtb_zero_EPS : Rgtb (Rabs 0) example_EPS = false.
Proof.
  apply Rgtb_false. rewrite Rabs_R0. unfold example_EPS. lra.
Qed.

(** The helix decomposition of the example: unit moment, [A = x], [B = y],
    nothing printed. *)
Lemma example_helix (mx rad : R) :
  helix_stage example_EPS std_mat3_mul std_mat3_diag std_mat3_vmul
              (example_input mx rad)
  = mkhelix [1] [vec3_zero] [mkvec3 1 0 0] [mkvec3 0 1 0] [].
Proof.
  unfold helix_stage. cbn [in_natoms example_input].
  rewrite for_loop_S, for_loop_0. unfold helix_body.
  destruct (example_fc_norms mx rad) as [-> ->].
  rewrite example_sc_lat, std_vmul_identity.
  replace (1 - 1) with 0 by ring.
  replace (vec3_dot (vec3_muls (1 / 1) (fc_re (example_input mx rad) 0))
                    (vec3_muls (1 / 1) (fc_im (example_input mx rad) 0)))
    with 0.
  2:{ unfold vec3_dot, vec3_muls, fc_re, fc_im, rd.
      cbn [in_fc example_input nth Nat.mul Nat.add x y z]. field. }
  replace (rd (in_phi (example_input mx rad)) 0) with 0 by reflexivity.
  rewrite Rgtb_zero_EPS. cbn [say app helix_init stagmom refatmpos Ahelix
    Bhelix printed in_natoms example_input repeat upd].
  f_equal.
  - f_equal. unfold centred.
    destruct (example_sc mx rad) as (-> & -> & ->). unfold rd.
    cbn [in_positions example_input nth Nat.add Nat.mul Nat.div Nat.divmod
         fst INR].
    vec3_field; lra.
  - f_equal. unfold fc_re, rd.
    cbn [in_fc example_input nth Nat.mul Nat.add]. vec3_field; lra.
  - f_equal. unfold fc_im, rd.
    cbn [in_fc example_input nth Nat.mul Nat.add]. vec3_field; lra.
Qed.

Lemma example_theta (mx rad : R) (h : helix) :
  theta std_mat3_inv std_mat3_mul std_mat3_diag std_mat3_vmul
        (example_input mx rad) h 0 0 0 0
  = 0.
Proof.
  unfold theta, K, vec3_dot, rd.
  cbn [in_K in_phi example_input nth x y z]. ring.
Qed.

(** The reduction of the example when the atom is inside the cutoff: the
    Lorentz sums of the single atom are [A] and [-B]. *)
Lemma example_lorentz_sums (mx rad : R) :
  0 <= mx < rad ->
  let g := example_input mx rad in
  let h := helix_stage example_EPS std_mat3_mul std_mat3_diag std_mat3_vmul
                       g in
  let s := lattice_reduction 3 std_mat3_inv std_mat3_mul std_mat3_diag
                             std_mat3_vmul g h in
  rdv (CLor s) 0 = mkvec3 1 0 0 /\ rdv (SLor s) 0 = mkvec3 0 (-1) 0.
Proof.
  intros [H0 H1]. cbv zeta.
  destruct (lattice_reduction_totals 3 std_mat3_inv std_mat3_mul
              std_mat3_diag std_mat3_vmul (example_input mx rad)
              (helix_stage example_EPS std_mat3_mul std_mat3_diag
                           std_mat3_vmul (example_input mx rad)) 0)
    as (_ & _ & HC & HS).
  { simpl. lia. }
  cbv zeta in HC, HS. rewrite HC, HS.
  destruct (example_sc mx rad) as (-> & -> & ->).
  cbn [vsum]. unfold inside.
  rewrite example_dist by exact H0.
  cbn [radius example_input]. rewrite (Rltb_true mx rad H1).
  rewrite example_theta, cos_0, sin_0, example_helix.
  unfold rdv. cbn [Ahelix Bhelix nth].
  split; unfold cos_part, sin_part; vec3_ring.
Qed.

Lemma example_angle (mx rad : R) : angle_of (example_input mx rad) 0 = 0.
Proof.
  unfold angle_of. cbn [in_nangles example_input INR]. field.
Qed.

(** The Lorentz vector the example run stores at angle index 0. *)
Lemma example_lorentz_output (mx rad : R) :
  0 <= mx < rad ->
  out_at (out_field_lor
            (FastIncommSum example_EPS 3 std_mat3_inv std_mat3_mul
                           std_mat3_diag std_mat3_vmul
                           (example_input mx rad))) 0
  = vec3_muls (0.33333333333 * 11.654064 * (3 / (4 * PI * rad ^ 3)))
              (mkvec3 1 0 0).
Proof.
  intros H. unfold FastIncommSum. cbn [out_field_lor].
  rewrite out_field_lor_at by (simpl; lia).
  unfold BLor_at. rewrite field_sum_vsum, example_angle, cos_0, sin_0.
  cbn [in_natoms example_input vsum radius].
  destruct (example_lorentz_sums mx rad H) as [-> ->].
  rewrite example_helix. unfold rd. cbn [stagmom nth].
  vec3_ring.
Qed.


(** ** The theorems at concrete inputs *)



Lemma helix_decomposition_witness :
  let g := example_input (1 / 2) 1 in
  let h := helix_stage example_EPS std_mat3_mul std_mat3_diag std_mat3_vmul
                       g in
  (0 < in_natoms g)%nat /\
  rd (stagmom h) 0 = vec3_norm (mkvec3 1 0 0) /\
  rdv (Ahelix h) 0 = vec3_divs (mkvec3 1 0 0) (rd (stagmom h) 0) /\
  rdv (Bhelix h) 0 = vec3_divs (mkvec3 0 1 0) (vec3_norm (mkvec3 0 1 0)).
Proof.
  intros g h.
  assert (H : (0 < in_natoms g)%nat) by (simpl; lia).
  split; [exact H|].
  exact (helix_decomposition example_EPS std_mat3_mul std_mat3_diag
           std_mat3_vmul g 0 H).
Defined.



Lemma dip_lor_outputs_witness :
  let g := example_input (1 / 2) 1 in
  let h := helix_stage example_EPS std_mat3_mul std_mat3_diag std_mat3_vmul
                       g in
  let s := lattice_reduction 3 std_mat3_inv std_mat3_mul std_mat3_diag
                             std_mat3_vmul g h in
  let angle := 2 * PI * INR 0 / INR (in_nangles g) in
  let field := fun C S =>
    vsum (fun a =>
            vec3_muls (rd (stagmom h) a)
              (vec3_sub (vec3_muls (cos angle) (rdv C a))
                        (vec3_muls (sin angle) (rdv S a))))
         (in_natoms g) in
  (0 < in_nangles g)%nat /\
  out_at (fst (dip_lor_pass g h s)) 0
    = vec3_muls 0.9274009 (field (CDip s) (SDip s)) /\
  out_at (snd (dip_lor_pass g h s)) 0
    = vec3_muls (0.33333333333 * 11.654064 * (3 / (4 * PI * radius g ^ 3)))
                (field (CLor s) (SLor s)).
Proof.
  intros g h s angle field.
  assert (Hn : (0 < in_nangles g)%nat) by (simpl; lia).
  split; [exact Hn|].
  destruct (dip_lor_outputs example_EPS 3 std_mat3_inv std_mat3_mul
              std_mat3_diag std_mat3_vmul g h s 0 Hn) as (H1 & H2 & _).
  split; [exact H1 | exact H2].
Defined.

(** The claim with the constant [0.33333333]: false on the example run,
    whose Lorentz vector at angle index 0 has the constant
    [0.33333333333]. *)
Lemma lorentz_constant_counterexample :
  let g := example_input (1 / 2) 1 in
  let h := helix_stage example_EPS std_mat3_mul std_mat3_diag std_mat3_vmul
                       g in
  let s := lattice_reduction 3 std_mat3_inv std_mat3_mul std_mat3_diag
                             std_mat3_vmul g h in
  let run := FastIncommSum example_EPS 3 std_mat3_inv std_mat3_mul
                           std_mat3_diag std_mat3_vmul g in
  let angle := 2 * PI * INR 0 / INR (in_nangles g) in
  let field :=
    vsum (fun a =>
            vec3_muls (rd (stagmom h) a)
              (vec3_sub (vec3_muls (cos angle) (rdv (CLor s) a))
                        (vec3_muls (sin angle) (rdv (SLor s) a))))
         (in_natoms g) in
  (0 < in_nangles g)%nat /\
  out_at (out_field_lor run) 0
  <> vec3_muls (0.33333333 * 11.654064 * (3 / (4 * PI * radius g ^ 3)))
               field.
Proof.
  intros g h s run angle field.
  split; [simpl; lia|].
  unfold run, g. rewrite example_lorentz_output by lra.
  unfold field, angle, s, h, g.
  cbn [in_natoms in_nangles example_input vsum radius INR].
  destruct (example_lorentz_sums (1 / 2) 1) as [-> ->]; [lra|].
  rewrite example_helix. unfold rd. cbn [stagmom nth].
  replace (2 * PI * 0 / 1) with 0 by field. rewrite cos_0, sin_0.
  intros E. apply (f_equal x) in E.
  unfold vec3_muls, vec3_add, vec3_sub, vec3_zero in E. cbn [x y z] in E.
  assert (HP : 0 < 3 / (4 * PI * 1 ^ 3)).
  { apply Rdiv_lt_0_compat; [lra|]. pose proof PI_RGT_0. nra. }
  nra.
Qed.

(** Two piles of capacity 1 whose single ranks agree, and two whose ranks
    differ. *)
Definition cos_pile : pile := pile_of 1 [(2, mkvec3 2 0 0)].
Definition sin_pile : pile := pile_of 1 [(2, mkvec3 0 4 0)].
Definition far_pile : pile := pile_of 1 [(3, mkvec3 0 4 0)].

Definition contact_input : args :=
  mkargs [0; 0; 0] [1; 0; 0; 1; 0; 0] [0; 0; 0] [0] [1 / 2; 0; 0]
         [1%Z; 1%Z; 1%Z] [1; 0; 0; 0; 1; 0; 0; 0; 1]
         1 1 1 1 1.

Lemma contact_outputs_witness :
  let g := contact_input in
  let t := contact_sums example_EPS (nnn_for_cont g) cos_pile sin_pile in
  let angle := 2 * PI * INR 0 / INR (in_nangles g) in
  (0 < in_nangles g)%nat /\
  out_at (contact_pass g t) 0
  = if (NofM t =? 0)%Z then vec3_zero
    else vec3_muls (1 / SumOfWeights t * 7.769376)
           (vec3_sub (vec3_muls (cos angle) (CBCont t))
                     (vec3_muls (sin angle) (SBCont t))).
Proof.
  intros g t angle.
  assert (Hn : (0 < in_nangles g)%nat) by (simpl; lia).
  split; [exact Hn|].
  destruct (contact_outputs example_EPS 3 std_mat3_inv std_mat3_mul
              std_mat3_diag std_mat3_vmul g cos_pile sin_pile)
    as (_ & _ & _ & _ & H & _).
  exact (H 0%nat Hn).
Defined.

(** The contact sums of the two agreeing piles: one moment of weight 1/2. *)
Example contact_sums_agreeing :
  let t := contact_sums example_EPS 1 cos_pile sin_pile in
  CBCont t = mkvec3 1 0 0 /\ SBCont t = mkvec3 0 2 0 /\
  SumOfWeights t = 1 / 2 /\ NofM t = 1%Z /\ odd t = [].
Proof.
  unfold contact_sums. rewrite for_loop_S, for_loop_0.
  rewrite contact_body_eligible.
  - unfold rd, rdv. cbn. repeat split; try vec3_field; try lra.
  - unfold eligible, rd. cbn.
    rewrite Rgeb_true by lra.
    replace (2 - 2) with 0 by ring. rewrite Rabs_R0.
    rewrite Rltb_true by (unfold example_EPS; lra). reflexivity.
Qed.

Lemma rank_mismatch_reported_and_dropped_witness :
  (0 < 1)%nat /\
  Rabs (rd (ranks cos_pile) 0 - rd (ranks far_pile) 0) > example_EPS /\
  In (VeryOdd (rd (ranks cos_pile) 0) (rd (ranks far_pile) 0))
     (odd (contact_sums example_EPS 1 cos_pile far_pile)) /\
  CBCont (contact_body example_EPS cos_pile far_pile 0 contact_init)
  = CBCont contact_init.
Proof.
  assert (Hi : (0 < 1)%nat) by lia.
  assert (Hr : Rabs (rd (ranks cos_pile) 0 - rd (ranks far_pile) 0)
               > example_EPS).
  { unfold rd. cbn. replace (2 - 3) with (- (1)) by ring.
    rewrite Rabs_Ropp, Rabs_R1. unfold example_EPS. lra. }
  destruct (rank_mismatch_reported_and_dropped example_EPS 1 cos_pile
              far_pile 0 Hi Hr) as [H1 H2].
  split; [exact Hi|]. split; [exact Hr|]. split; [exact H1|].
  exact (proj1 (H2 contact_init)).
Defined.

(** The claim that a mismatched position is still consumed: false on the
    piles [cos_pile] and [far_pile], whose ranks 2 and 3 differ by more than
    [EPS]; the cosine sum stays at zero instead of receiving
    [elements[0]/ranks[0]]. *)
Lemma rank_mismatch_counterexample :
  Rabs (rd (ranks cos_pile) 0 - rd (ranks far_pile) 0) > example_EPS /\
  CBCont (contact_sums example_EPS 1 cos_pile far_pile) = vec3_zero /\
  SBCont (contact_sums example_EPS 1 cos_pile far_pile) = vec3_zero /\
  NofM (contact_sums example_EPS 1 cos_pile far_pile) = 0%Z /\
  CBCont (contact_sums example_EPS 1 cos_pile far_pile)
  <> vec3_add (CBCont contact_init)
              (vec3_divs (rdv (elements cos_pile) 0) (rd (ranks cos_pile) 0)).
Proof.
  assert (Hr : Rabs (rd (ranks cos_pile) 0 - rd (ranks far_pile) 0)
               > example_EPS).
  { unfold rd. cbn. replace (2 - 3) with (- (1)) by ring.
    rewrite Rabs_Ropp, Rabs_R1. unfold example_EPS. lra. }
  assert (E : eligible example_EPS cos_pile far_pile 0 = false).
  { unfold eligible. rewrite (Rltb_false _ example_EPS) by lra.
    apply andb_false_r. }
  unfold contact_sums. rewrite for_loop_S, for_loop_0.
  rewrite contact_body_not_eligible by exact E.
  cbn [CBCont SBCont NofM contact_init].
  repeat split; auto.
  intros H. apply (f_equal x) in H. unfold rd, rdv in H. cbn in H. lra.
Qed.




(** Evaluates the comparisons of concrete ranks met while a pile is run. *)
Ltac run_pile :=
  unfold pile_of, pile_init;
  repeat (cbn [fold_left pile_add_element insert_by_rank held nElements
               length Nat.ltb Nat.leb rev app removelast fst snd];
          first [ rewrite Rltb_true by lra | rewrite Rltb_false by lra ]);
  cbn [fold_left pile_add_element insert_by_rank held nElements
       length Nat.ltb Nat.leb rev app removelast fst snd].

(** A pile of capacity 2 fed the ranks 3, 1, 2, 1 keeps the two pairs of
    rank 1, the one seen first in front. *)
Example pile_of_four :
  pile_of 2 [(3, mkvec3 1 0 0); (1, mkvec3 0 1 0); (2, mkvec3 0 0 1);
             (1, mkvec3 1 1 1)]
  = mkpile 2 [(1, mkvec3 0 1 0); (1, mkvec3 1 1 1)].
Proof. run_pile. reflexivity. Qed.

(** With one candidate the second position of a pile of capacity 2 holds the
    sentinel. *)
Example pile_of_one :
  ranks (pile_of 2 [(5, mkvec3 1 0 0)]) = [5; -1].
Proof. reflexivity. Qed.

Lemma pile_keeps_smallest_witness :
  let cands := [(2, mkvec3 1 0 0); (1, mkvec3 0 1 0)] in
  let cands' := [(1, mkvec3 0 1 0); (2, mkvec3 1 0 0)] in
  let p := pile_of 3 cands in
  Permutation cands cands' /\ (Nat.min 3 (length cands) <= 2 < 3)%nat /\
  length (held p) = Nat.min 3 (length cands) /\
  map fst (held (pile_of 3 cands')) = map fst (held p) /\
  ascending (map fst (held p)) /\
  rd (ranks p) 2 = sentinel /\ sentinel < 0.
Proof.
  intros cands cands' p.
  assert (HP : Permutation cands cands') by apply perm_swap.
  assert (Hi : (Nat.min 3 (length cands) <= 2 < 3)%nat) by (simpl; lia).
  destruct (pile_keeps_smallest 3 cands)
    as (_ & H2 & _ & _ & _ & _ & H7 & H8 & _ & _ & H11).
  split; [exact HP|]. split; [exact Hi|]. split; [exact H2|].
  split; [exact (H7 cands' HP)|]. split; [exact H8|].
  exact (H11 2%nat Hi).
Defined.

(** ** The further properties at concrete inputs *)

Lemma reference_is_central_image_witness :
  let g := example_input (1 / 2) 1 in
  let h := helix_stage example_EPS std_mat3_mul std_mat3_diag std_mat3_vmul
                       g in
  (0 < in_natoms g)%nat /\
  rdv (refatmpos h) 0
  = atmpos std_mat3_mul std_mat3_diag std_mat3_vmul g
           (scx g / 2) (scy g / 2) (scz g / 2) 0.
Proof.
  intros g h.
  assert (Ha : (0 < in_natoms g)%nat) by (simpl; lia).
  split; [exact Ha|].
  exact (proj1 (reference_is_central_image example_EPS std_mat3_inv
                  std_mat3_mul std_mat3_diag std_mat3_vmul g 0 Ha)).
Defined.

Lemma helix_vectors_unit_witness :
  let g := example_input (1 / 2) 1 in
  let h := helix_stage example_EPS std_mat3_mul std_mat3_diag std_mat3_vmul
                       g in
  (0 < in_natoms g)%nat /\
  vec3_norm (fc_re g 0) <> 0 /\ vec3_norm (fc_im g 0) <> 0 /\
  vec3_norm (rdv (Ahelix h) 0) = 1 /\
  vec3_norm (rdv (Bhelix h) 0) = 1 /\
  0 < rd (stagmom h) 0 /\
  vec3_muls (rd (stagmom h) 0) (rdv (Ahelix h) 0) = fc_re g 0.
Proof.
  intros g h.
  assert (Ha : (0 < in_natoms g)%nat) by (simpl; lia).
  destruct (example_fc_norms (1 / 2) 1) as [N1 N2]. fold g in N1, N2.
  assert (H1 : vec3_norm (fc_re g 0) <> 0) by (rewrite N1; lra).
  assert (H2 : vec3_norm (fc_im g 0) <> 0) by (rewrite N2; lra).
  split; [exact Ha|]. split; [exact H1|]. split; [exact H2|].
  exact (helix_vectors_unit example_EPS std_mat3_mul std_mat3_diag
           std_mat3_vmul g 0 Ha H1 H2).
Defined.

Lemma commensurate_sums_witness :
  let g := example_input (1 / 2) 1 in
  let h := helix_stage example_EPS std_mat3_mul std_mat3_diag std_mat3_vmul
                       g in
  let s := lattice_reduction 3 std_mat3_inv std_mat3_mul std_mat3_diag
                             std_mat3_vmul g h in
  (0 < in_natoms g)%nat /\ K g = vec3_zero /\ rd (in_phi g) 0 = 0 /\
  rdv (CLor s) 0
  = vsum (fun i => vsum (fun j => vsum (fun k =>
      inside std_mat3_mul std_mat3_diag std_mat3_vmul g i j k 0
             (rdv (Ahelix h) 0))
      (scz g)) (scy g)) (scx g).
Proof.
  intros g h s.
  assert (Ha : (0 < in_natoms g)%nat) by (simpl; lia).
  assert (HK : K g = vec3_zero) by reflexivity.
  assert (Hp : rd (in_phi g) 0 = 0) by reflexivity.
  split; [exact Ha|]. split; [exact HK|]. split; [exact Hp|].
  exact (proj1 (proj2 (proj2
           (commensurate_sums 3 std_mat3_inv std_mat3_mul std_mat3_diag
              std_mat3_vmul g h 0 Ha HK Hp)))).
Defined.

Lemma curves_are_sinusoids_witness :
  let g := example_input (1 / 2) 1 in
  let h := helix_stage example_EPS std_mat3_mul std_mat3_diag std_mat3_vmul
                       g in
  let s := lattice_reduction 3 std_mat3_inv std_mat3_mul std_mat3_diag
                             std_mat3_vmul g h in
  let run := FastIncommSum example_EPS 3 std_mat3_inv std_mat3_mul
                           std_mat3_diag std_mat3_vmul g in
  let weighted := fun (V : list vec3) =>
    vec3_muls 0.9274009
      (vsum (fun a => vec3_muls (rd (stagmom h) a) (rdv V a))
            (in_natoms g)) in
  (0 < in_nangles g)%nat /\
  out_at (out_field_dip run) 0
  = vec3_sub (vec3_muls (cos (angle_of g 0)) (weighted (CDip s)))
             (vec3_muls (sin (angle_of g 0)) (weighted (SDip s))).
Proof.
  intros g h s run weighted.
  assert (Hn : (0 < in_nangles g)%nat) by (simpl; lia).
  split; [exact Hn|].
  exact (proj1 (curves_are_sinusoids example_EPS 3 std_mat3_inv
                  std_mat3_mul std_mat3_diag std_mat3_vmul g 0%nat Hn)).
Defined.

Lemma contact_equal_ranks_average_witness :
  let g := contact_input in
  0 < example_EPS /\ 0 < 2 /\ (0 < nnn_for_cont g)%nat /\
  (forall i, (i < nnn_for_cont g)%nat ->
     rd (ranks cos_pile) i = 2 /\ rd (ranks sin_pile) i = 2) /\
  (0 < in_nangles g)%nat /\
  out_at (contact_pass g
            (contact_sums example_EPS (nnn_for_cont g) cos_pile sin_pile)) 0
  = vec3_muls (7.769376 / INR (nnn_for_cont g))
      (vsum (fun i =>
               vec3_sub
                 (vec3_muls (cos (angle_of g 0)) (rdv (elements cos_pile) i))
                 (vec3_muls (sin (angle_of g 0)) (rdv (elements sin_pile) i)))
            (nnn_for_cont g)).
Proof.
  intros g.
  assert (HE : 0 < example_EPS) by (unfold example_EPS; lra).
  assert (Hr : 0 < 2) by lra.
  assert (Hk : (0 < nnn_for_cont g)%nat) by (simpl; lia).
  assert (HR : forall i, (i < nnn_for_cont g)%nat ->
                 rd (ranks cos_pile) i = 2 /\ rd (ranks sin_pile) i = 2).
  { intros i Hi. simpl in Hi. assert (i = 0%nat) by lia. subst i.
    split; reflexivity. }
  assert (Hn : (0 < in_nangles g)%nat) by (simpl; lia).
  split; [exact HE|]. split; [exact Hr|]. split; [exact Hk|].
  split; [exact HR|]. split; [exact Hn|].
  exact (contact_equal_ranks_average example_EPS g cos_pile sin_pile 2
           HE Hr Hk HR 0%nat Hn).
Defined.

Lemma contact_needs_both_cutoffs_witness :
  let g := example_input (1 / 2) 1 in
  let run := FastIncommSum example_EPS 3 std_mat3_inv std_mat3_mul
                           std_mat3_diag std_mat3_vmul g in
  (forall i j k a, (i < scx g)%nat -> (j < scy g)%nat -> (k < scz g)%nat ->
     (a < in_natoms g)%nat ->
     ~ (dist std_mat3_mul std_mat3_diag std_mat3_vmul g i j k a < radius g /\
        dist std_mat3_mul std_mat3_diag std_mat3_vmul g i j k a
        < cont_radius g)) /\
  (0 < in_nangles g)%nat /\
  out_at (out_field_cont run) 0 = vec3_zero /\
  x (out_at (out_field_lor run) 0) <> 0.
Proof.
  intros g run.
  assert (H : forall i j k a, (i < scx g)%nat -> (j < scy g)%nat ->
                (k < scz g)%nat -> (a < in_natoms g)%nat ->
                ~ (dist std_mat3_mul std_mat3_diag std_mat3_vmul g i j k a
                   < radius g /\
                   dist std_mat3_mul std_mat3_diag std_mat3_vmul g i j k a
                   < cont_radius g)).
  { intros i j k a _ _ _ _ [_ Hc].
    pose proof (dist_nonneg std_mat3_mul std_mat3_diag std_mat3_vmul
                            g i j k a) as Hd.
    simpl in Hc. lra. }
  assert (Hn : (0 < in_nangles g)%nat) by (simpl; lia).
  split; [exact H|]. split; [exact Hn|]. split.
  - exact (proj2 (proj2
             (contact_needs_both_cutoffs example_EPS 3 std_mat3_inv
                std_mat3_mul std_mat3_diag std_mat3_vmul g H)) 0%nat Hn).
  - unfold run, g. rewrite example_lorentz_output by lra.
    unfold vec3_muls. cbn [x].
    assert (HP : 0 < 3 / (4 * PI * 1 ^ 3)).
    { apply Rdiv_lt_0_compat; [lra|]. pose proof PI_RGT_0. nra. }
    nra.
Defined.



(** ** The helix decomposition over doubles with infinities and NaN

    The reals of the embedding above have no infinity and no NaN, so they
    cannot say what [1.0/stagmom[a]] is when [stagmom[a]] is zero.  This
    module reads lines 246-286 of the source again over the reals extended
    with the IEEE 754 special values.  Rounding and overflow are still
    ignored and zero is unsigned (it stands for [+0]: the only divisors of
    these lines are square roots of sums of squares, which are never
    [-0]). *)
Module SpecialValues.

Inductive double : Type :=
| Fin (r : R)
| PInf
| NInf
| NaN.



Definition dadd (u v : double) : double :=
  match u, v with
  | Fin p, Fin q => Fin (p + q)
  | NaN, _ | _, NaN => NaN
  | PInf, NInf | NInf, PInf => NaN
  | PInf, _ | _, PInf => PInf
  | NInf, _ | _, NInf => NInf
  end.



















Lemma dot_nonneg (v : vec3) : 0 <= vec3_dot v v.
Proof. unfold vec3_dot. nra. Qed.


Lemma norm_zero (v : vec3) : vec3_norm v = 0 -> v = vec3_zero.
Proof.
  unfold vec3_norm. intros H. apply sqrt_eq_0 in H; [|apply dot_nonneg].
  unfold vec3_dot in H. apply vec3_eq; simpl; nra.
Qed.






Lemma add_nan_l (u : double) : dadd NaN u = NaN.
Proof. destruct u; reflexivity. Qed.
















End SpecialValues.
